(** * Citation resolution, link classification and markdown normalization

    A shallow embedding of the logic of the [Markdown] component
    (citation index, the [a] renderer, [dropMarkdownQuote]) and of
    [CitationLink] / [CitationCard] from [citation.tsx], with the
    properties of their specification stated and settled against it. *)

From Stdlib Require Import Strings.String Strings.Ascii DecimalNat.
From stdpp Require Import base numbers option list gmap.

Set Default Proof Using "Type".

(** ** JavaScript strings

    A JavaScript string is a finite sequence of 16-bit code units.  Code
    units are kept as [N]: the functions below are total on [list N], and
    the strings of the program are the lists of numbers below 65536. *)

Abbreviation jsstring := (list N).

(** Literals: the code units of an ASCII literal. *)
Definition js (s : string) : jsstring :=
  (λ a, N_of_ascii a) <$> list_ascii_of_string s.

(** The line feed, written [\n] in the source. *)
Definition LF : jsstring := [10%N].

Module JSString.

(** [String.prototype.startsWith(p)] *)
Fixpoint startsWith (s p : jsstring) {struct p} : bool :=
  match p, s with
  | [], _ => true
  | _ :: _, [] => false
  | c :: p', d :: s' => (c =? d)%N && startsWith s' p'
  end.

(** [String.prototype.endsWith(p)] *)
Definition endsWith (s p : jsstring) : bool :=
  if length s <? length p then false
  else startsWith (drop (length s - length p) s) p.

(** [String.prototype.slice(a, b)] for non-negative indices. *)
Definition slice (s : jsstring) (a b : nat) : jsstring :=
  take (b - a) (drop a s).

(** [String.prototype.slice(a)] for a non-negative index. *)
Definition sliceFrom (s : jsstring) (a : nat) : jsstring := drop a s.

(** Position of the first occurrence of [p] in [s]. *)
Fixpoint search (s p : jsstring) : option nat :=
  if startsWith s p then Some 0
  else match s with
       | [] => None
       | _ :: s' => S <$> search s' p
       end.

(** [String.prototype.indexOf(p, from)]; [None] stands for [-1]. *)
Definition indexOf (s p : jsstring) (from : nat) : option nat :=
  (λ i, from + i) <$> search (drop from s) p.

End JSString.

(** ** Markdown normalization: [dropMarkdownQuote] *)

Module DropMarkdownQuote.
Import JSString.

Record fence := Fence {
  prefix : jsstring;
  suffix : jsstring;
  prefixLen : nat
}.

Definition patternsToRemove : list fence :=
  [ Fence (js "```markdown" ++ LF) (LF ++ js "```") 12;
    Fence (js "```text" ++ LF) (LF ++ js "```") 8;
    Fence (js "```" ++ LF) (LF ++ js "```") 4 ].

(** The first [for] loop: the opening fence of the first pattern that
    opens the text without closing it is cut off, once. *)
Fixpoint stripOpen (ps : list fence) (result : jsstring) : jsstring :=
  match ps with
  | [] => result
  | f :: ps' =>
      if startsWith result (prefix f) && negb (endsWith result (suffix f))
      then sliceFrom result (prefixLen f)
      else stripOpen ps' result
  end.

(** One removal: [before + content + after]. *)
Definition removePair (f : fence) (result : jsstring)
    (startIndex endIndex : nat) : jsstring :=
  let before := slice result 0 startIndex in
  let content := slice result (startIndex + prefixLen f) endIndex in
  let after := sliceFrom result (endIndex + length (suffix f)) in
  before ++ content ++ after.

(** The inner [while] loop for one pattern.  The state is
    [(result, changed, startIndex)]; [None] means the fuel ran out
    before the loop condition became false. *)
Fixpoint scan (fuel : nat) (f : fence) (result : jsstring)
    (changed : bool) (startIndex : nat) : option (jsstring * bool) :=
  match fuel with
  | 0 => None
  | S fuel' =>
      match indexOf result (prefix f) startIndex with
      | None => Some (result, changed)
      | Some startIndex =>
          match indexOf result (suffix f) (startIndex + prefixLen f) with
          | Some endIndex =>
              let before := slice result 0 startIndex in
              let content := slice result (startIndex + prefixLen f) endIndex in
              scan fuel' f (removePair f result startIndex endIndex) true
                (length before + length content)
          | None => scan fuel' f result changed (startIndex + prefixLen f)
          end
      end
  end.

(** The [for] loop over the patterns inside the outer [while]. *)
Fixpoint sweep (fuel : nat) (ps : list fence) (result : jsstring)
    (changed : bool) : option (jsstring * bool) :=
  match ps with
  | [] => Some (result, changed)
  | f :: ps' =>
      match scan fuel f result changed 0 with
      | None => None
      | Some (result', changed') => sweep fuel ps' result' changed'
      end
  end.

(** The outer [while (changed)] loop. *)
Fixpoint unwrap (fuel : nat) (result : jsstring) : option jsstring :=
  match fuel with
  | 0 => None
  | S fuel' =>
      match sweep fuel patternsToRemove result false with
      | None => None
      | Some (result', true) => unwrap fuel' result'
      | Some (result', false) => Some result'
      end
  end.

(** The function with its loops bounded by [fuel].  The outer [option]
    is [None] when a loop did not finish within [fuel] iterations; the
    inner one is the [string | null] of the source, where an absent or
    [null] argument is [None]. *)
Definition dropMarkdownQuote_fuel (fuel : nat) (markdown : option jsstring)
    : option (option jsstring) :=
  match markdown with
  | None => Some None
  | Some [] => Some None
  | Some ((_ :: _) as markdown) =>
      Some <$> unwrap fuel (stripOpen patternsToRemove markdown)
  end.

(** Iterations that always suffice (see [dropMarkdownQuote_fuel_enough]). *)
Definition enough (markdown : option jsstring) : nat :=
  match markdown with
  | Some markdown => S (length markdown)
  | None => 1
  end.

Definition dropMarkdownQuote (markdown : option jsstring) : option jsstring :=
  default None (dropMarkdownQuote_fuel (enough markdown) markdown).

(** The call site: [dropMarkdownQuote(x) ?? ""]. *)
Definition dropMarkdownQuote_or_empty (markdown : option jsstring) : jsstring :=
  default [] (dropMarkdownQuote markdown).

(** *** Notions used to state the properties of the loops *)

(** A fence whose parts are not empty. *)
Definition proper (f : fence) : Prop :=
  0 < prefixLen f ∧ 0 < length (prefix f) ∧ 0 < length (suffix f).

(** What a run of a loop did to the text: nothing, or it shortened it
    and raised the flag. *)
Definition progress (r : jsstring) (ch : bool) (out : jsstring * bool) : Prop :=
  out = (r, ch) ∨ (out.2 = true ∧ length out.1 < length r).

(** No pattern opens [r] without closing it. *)
Definition balanced (r : jsstring) : Prop :=
  ∀ f, f ∈ patternsToRemove →
    startsWith r (prefix f) && negb (endsWith r (suffix f)) = false.

End DropMarkdownQuote.

(** ** Built-in functions of the language used by the components

    These follow ECMA-262: white space and [trim], number to string for
    array indices, and the URI coding functions. *)

Module Builtins.

(** [WhiteSpace] and [LineTerminator] code units: what [trim] strips and
    what [\s] matches. *)
Definition isWhiteSpace (c : N) : bool :=
  ((9 <=? c) && (c <=? 13) || (c =? 32) || (c =? 160) || (c =? 5760)
   || (8192 <=? c) && (c <=? 8202) || (c =? 8232) || (c =? 8233)
   || (c =? 8239) || (c =? 8287) || (c =? 12288) || (c =? 65279))%N.

(** [\d] *)
Definition isDigit (c : N) : bool := ((48 <=? c) && (c <=? 57))%N.

Fixpoint trimStart (s : jsstring) : jsstring :=
  match s with
  | c :: s' => if isWhiteSpace c then trimStart s' else s
  | [] => []
  end.

Definition trimEnd (s : jsstring) : jsstring :=
  reverse (trimStart (reverse s)).

(** [String.prototype.trim] *)
Definition trim (s : jsstring) : jsstring := trimEnd (trimStart s).

Fixpoint uintDigits (d : Decimal.uint) : jsstring :=
  match d with
  | Decimal.Nil => []
  | Decimal.D0 d => 48 :: uintDigits d | Decimal.D1 d => 49 :: uintDigits d
  | Decimal.D2 d => 50 :: uintDigits d | Decimal.D3 d => 51 :: uintDigits d
  | Decimal.D4 d => 52 :: uintDigits d | Decimal.D5 d => 53 :: uintDigits d
  | Decimal.D6 d => 54 :: uintDigits d | Decimal.D7 d => 55 :: uintDigits d
  | Decimal.D8 d => 56 :: uintDigits d | Decimal.D9 d => 57 :: uintDigits d
  end%N.

(** [String(n)] for a non-negative integer [n]: its decimal digits. *)
Definition toString (n : nat) : jsstring := uintDigits (Nat.to_uint n).

(** *** URI coding (ECMA-262, Encode and Decode) *)

Definition isAlwaysUnescaped (c : N) : bool :=
  ((65 <=? c) && (c <=? 90) || (97 <=? c) && (c <=? 122)
   || (48 <=? c) && (c <=? 57) || (c =? 95))%N
  || bool_decide (c ∈ js "-.!~*'()").

(** The characters [encodeURI] leaves alone besides the always
    unescaped ones: the reserved characters and the hash. *)
Definition isUriReservedPlusHash (c : N) : bool :=
  bool_decide (c ∈ js ";/?:@&=+$,#").

Definition hexDigit (v : N) : N :=
  (if v <? 10 then 48 + v else 55 + v)%N.

(** ["%XX"], upper case. *)
Definition percent (octet : N) : jsstring :=
  [37; hexDigit (octet / 16); hexDigit (octet mod 16)]%N.

(** UTF-8 octets of a code point. *)
Definition utf8 (cp : N) : list N :=
  (if cp <? 128 then [cp]
   else if cp <? 2048 then [192 + cp / 64; 128 + cp mod 64]
   else if cp <? 65536 then
     [224 + cp / 4096; 128 + (cp / 64) mod 64; 128 + cp mod 64]
   else
     [240 + cp / 262144; 128 + (cp / 4096) mod 64;
      128 + (cp / 64) mod 64; 128 + cp mod 64])%N.

Definition isLeadSurrogate (c : N) : bool := ((55296 <=? c) && (c <=? 56319))%N.
Definition isTrailSurrogate (c : N) : bool := ((56320 <=? c) && (c <=? 57343))%N.

Definition percentAll (octets : list N) : jsstring :=
  concat (percent <$> octets).

(** [Encode(string, extraUnescaped)]; [None] is the [URIError] thrown at
    an unpaired surrogate. *)
Fixpoint Encode (extraUnescaped : N → bool) (s : jsstring) : option jsstring :=
  match s with
  | [] => Some []
  | c :: s' =>
      if isAlwaysUnescaped c || extraUnescaped c then
        (c ::.) <$> Encode extraUnescaped s'
      else if isTrailSurrogate c then None
      else if isLeadSurrogate c then
        match s' with
        | d :: s'' =>
            if isTrailSurrogate d then
              let cp := ((c - 55296) * 1024 + (d - 56320) + 65536)%N in
              (percentAll (utf8 cp) ++.) <$> Encode extraUnescaped s''
            else None
        | [] => None
        end
      else (percentAll (utf8 c) ++.) <$> Encode extraUnescaped s'
  end.

Definition encodeURI (uri : jsstring) : option jsstring :=
  Encode isUriReservedPlusHash uri.

Definition hexValue (c : N) : option N :=
  (if (48 <=? c) && (c <=? 57) then Some (c - 48)
   else if (65 <=? c) && (c <=? 70) then Some (c - 55)
   else if (97 <=? c) && (c <=? 102) then Some (c - 87)
   else None)%N.

(** [ParseHexOctet] at the head of ["%XX..."]: the octet and the rest. *)
Definition parseEscape (s : jsstring) : option (N * jsstring) :=
  match s with
  | 37%N :: h :: l :: rest =>
      hi ← hexValue h; lo ← hexValue l; Some (hi * 16 + lo, rest)%N
  | _ => None
  end.

(** The [n] continuation escapes that follow a leading octet. *)
Fixpoint continuation (n : nat) (s : jsstring) : option (list N * jsstring) :=
  match n with
  | 0 => Some ([], s)
  | S n' =>
      '(b, rest) ← parseEscape s;
      '(bs, rest') ← continuation n' rest;
      Some (b :: bs, rest')
  end.

(** Number of octets announced by a leading octet (its leading 1 bits). *)
Definition leadingOnes (b : N) : nat :=
  if (b <? 128)%N then 0 else if (b <? 192)%N then 1
  else if (b <? 224)%N then 2 else if (b <? 240)%N then 3
  else if (b <? 248)%N then 4 else 5.

(** The code point of a well-formed UTF-8 sequence [b :: bs]: the
    continuation octets are in [80..BF], the encoding is the shortest
    one, and the value is a scalar value. *)
Definition utf8Decode (b : N) (bs : list N) : option N :=
  if forallb (λ x, (128 <=? x) && (x <? 192))%N bs then
    let payload := (b mod 2 ^ (7 - N.of_nat (S (length bs))))%N in
    let cp := foldl (λ acc x, acc * 64 + x mod 64)%N payload bs in
    let lowest :=
      match length bs with 1 => 128%N | 2 => 2048%N | _ => 65536%N end in
    if ((lowest <=? cp) && (cp <=? 1114111)
        && negb ((55296 <=? cp) && (cp <=? 57343)))%N
    then Some cp else None
  else None.

(** [UTF16EncodeCodePoint] *)
Definition utf16 (cp : N) : jsstring :=
  (if cp <? 65536 then [cp]
   else [55296 + (cp - 65536) / 1024; 56320 + (cp - 65536) mod 1024])%N.

(** [Decode(string, "")]: one escape sequence or one plain code unit per
    step; [fuel] bounds the steps and [length s] of them are enough.
    [None] is the [URIError]. *)
Fixpoint Decode (fuel : nat) (s : jsstring) : option jsstring :=
  match s with
  | [] => Some []
  | c :: s' =>
      match fuel with
      | 0 => None
      | S fuel' =>
          if (c =? 37)%N then
            '(b, rest) ← parseEscape s;
            match leadingOnes b with
            | 0 => (b ::.) <$> Decode fuel' rest
            | 2 | 3 | 4 =>
                '(bs, rest') ← continuation (leadingOnes b - 1) rest;
                cp ← utf8Decode b bs;
                (utf16 cp ++.) <$> Decode fuel' rest'
            | _ => None
            end
          else (c ::.) <$> Decode fuel' s'
      end
  end.

Definition decodeURIComponent (s : jsstring) : option jsstring :=
  Decode (length s) s.

End Builtins.

(** ** Regular expressions

    The fragment of the pattern language the components use, with the
    backtracking semantics of ECMA-262 (no flags): greedy quantifiers, the
    alternatives tried left to right, [^] and [$] as the ends of the input.
    The patterns have one capturing group at most. *)

Module Regex.

Inductive regex :=
| Empty
| Char (c : N)
| Class (p : N → bool)
| Bol
| Eol
| Seq (r1 r2 : regex)
| Alt (r1 r2 : regex)
| Opt (r : regex)
| Star (r : regex)
| Group (r : regex).

(** [r+] *)
Definition Plus (r : regex) : regex := Seq r (Star r).

(** A literal run of characters. *)
Definition Lit (s : jsstring) : regex := foldr (λ c r, Seq (Char c) r) Empty s.

(** The state of a match: the index reached, the input from there on and
    the text of the capturing group, if it took part. *)
Definition cont := nat → jsstring → option jsstring → option (option jsstring).

(** The repetition of [Star]: [step] matches the body once.  An
    iteration that consumes nothing is rejected, so [length s]
    iterations, the initial [n], are all there can be. *)
Fixpoint iterate (step : nat → jsstring → option jsstring → cont →
                         option (option jsstring))
    (k : cont) (n : nat) (pos : nat) (s : jsstring) (cap : option jsstring)
    : option (option jsstring) :=
  match n with
  | 0 => k pos s cap
  | S n' =>
      match step pos s cap
              (λ pos' s' cap',
                 if pos <? pos' then iterate step k n' pos' s' cap' else None) with
      | Some x => Some x
      | None => k pos s cap
      end
  end.

(** [m r pos s cap k] matches [r] at index [pos], where [s] is the input
    from [pos] on, and hands the state reached to [k]; when [k] fails the
    next way of matching [r] is tried. *)
Fixpoint m (r : regex) (pos : nat) (s : jsstring) (cap : option jsstring)
    (k : cont) : option (option jsstring) :=
  match r with
  | Empty => k pos s cap
  | Char c =>
      match s with
      | d :: s' => if (c =? d)%N then k (S pos) s' cap else None
      | [] => None
      end
  | Class p =>
      match s with
      | d :: s' => if p d then k (S pos) s' cap else None
      | [] => None
      end
  | Bol => if pos =? 0 then k pos s cap else None
  | Eol => match s with [] => k pos s cap | _ :: _ => None end
  | Seq r1 r2 => m r1 pos s cap (λ pos' s' cap', m r2 pos' s' cap' k)
  | Alt r1 r2 =>
      match m r1 pos s cap k with
      | Some x => Some x
      | None => m r2 pos s cap k
      end
  | Opt r' =>
      match m r' pos s cap k with
      | Some x => Some x
      | None => k pos s cap
      end
  | Star r' => iterate (m r') k (length s) pos s cap
  | Group r' =>
      m r' pos s cap (λ pos' s' _, k pos' s' (Some (take (pos' - pos) s)))
  end.

(** The continuation at the end of a pattern: the match is found. *)
Definition found : cont := λ _ _ cap, Some cap.

(** The search for a match, from each index in turn. *)
Fixpoint execFrom (r : regex) (pos : nat) (s : jsstring)
    : option (option jsstring) :=
  match m r pos s None found with
  | Some cap => Some cap
  | None =>
      match s with
      | [] => None
      | _ :: s' => execFrom r (S pos) s'
      end
  end.

(** [str.match(r)] for a pattern without the [g] flag: [None] is the
    [null] of no match; a match is known by its group 1, which is [None]
    ([undefined]) when the group took no part. *)
Definition strMatch (str : jsstring) (r : regex) : option (option jsstring) :=
  execFrom r 0 str.

(** Group 1 inside a template literal. *)
Definition group1 (match_ : option jsstring) : jsstring :=
  default (js "undefined") match_.

(** [r.test(str)] *)
Definition test (r : regex) (str : jsstring) : bool :=
  match execFrom r 0 str with
  | Some _ => true
  | None => false
  end.

(** The length of the longest prefix of [s] made of [p] characters. *)
Fixpoint run (p : N → bool) (s : jsstring) : nat :=
  match s with
  | c :: s' => if p c then S (run p s') else 0
  | [] => 0
  end.

End Regex.

(** ** The data model: [Citation] *)

(** [relevance_score], a floating point number, plays no part in what
    follows and is left out. *)
Record Citation := {
  url : jsstring;
  title : jsstring;
  description : option jsstring;
  content_snippet : option jsstring;
  domain : option jsstring;
  accessed_at : option jsstring;
  source_type : option jsstring
}.

(** A citation with nothing but its [url] and an empty title, for the
    examples. *)
Definition bare (url : jsstring) : Citation :=
  {| url := url; title := []; description := None; content_snippet := None;
     domain := None; accessed_at := None; source_type := None |}.

(** ** [citation.tsx] *)

Module CitationTsx.
Import JSString Builtins.

(** [Array.prototype.findIndex]; [None] stands for [-1]. *)
Fixpoint findIndex {A} (p : A → bool) (l : list A) : option nat :=
  match l with
  | [] => None
  | x :: l' => if p x then Some 0 else S <$> findIndex p l'
  end.

(** [===] on strings. *)
Definition strictEq (a b : jsstring) : bool := bool_decide (a = b).

Definition normalizeUrl (url : jsstring) : jsstring :=
  match decodeURIComponent url with
  | Some decoded => trim decoded
  | None => trim url
  end.

(** The memoized lookup of [CitationLink]: [{ citation, index }]. *)
Definition CitationLink_lookup (href : jsstring) (citations : list Citation)
    : option Citation * option nat :=
  match href with
  | [] => (None, None)
  | _ :: _ =>
      let matchIndex := findIndex (λ c, strictEq (url c) href) citations in
      let matchIndex :=
        match matchIndex with
        | None =>
            let normalizedHref := normalizeUrl href in
            findIndex (λ c, strictEq (normalizeUrl (url c)) normalizedHref)
              citations
        | Some i => Some i
        end in
      let match_ :=
        match matchIndex with
        | Some i => citations !! i
        | None => None
        end in
      (match_, matchIndex)
  end.

(** *** The access date of [CitationCard]

    [new Date(string)] and [toLocaleDateString] are taken from the host:
    [parse] gives the time value of a string the host can read and
    [None], the time value [NaN], for any other; [format] renders a finite
    time value.  Neither call throws: the constructor yields an invalid
    date for an unreadable string, and [toLocaleDateString] of an invalid
    date is the string ["Invalid Date"]. *)

Inductive completion (A : Type) :=
| Normal (a : A)
| Throw.
Arguments Normal {A} a.
Arguments Throw {A}.

Definition bind {A B} (c : completion A) (f : A → completion B) : completion B :=
  match c with
  | Normal a => f a
  | Throw => Throw
  end.

Section FormattedDate.
Variable parse : jsstring → option Z.
Variable format : Z → jsstring.

Definition newDate (s : jsstring) : completion (option Z) :=
  Normal (parse s).

Definition toLocaleDateString (date : option Z) : completion jsstring :=
  match date with
  | Some t => Normal (format t)
  | None => Normal (js "Invalid Date")
  end.

(** [formattedDate]: [None] is the [null] of the source. *)
Definition formattedDate (accessed_at : option jsstring) : option jsstring :=
  match accessed_at with
  | None | Some [] => None
  | Some accessed_at =>
      match bind (newDate accessed_at) toLocaleDateString with
      | Normal text => Some text
      | Throw => Some (slice accessed_at 0 10)
      end
  end.
End FormattedDate.

End CitationTsx.

(** ** The [Markdown] component *)

Module Markdown.
Import JSString Builtins Regex CitationTsx.

(** The [set] calls of one [forEach] step. *)
Definition addCitation (map : gmap jsstring nat) (c : Citation) (index : nat)
    : gmap jsstring nat :=
  match url c with
  | [] => map
  | _ :: _ =>
      let map := <[url c := index]> map in
      let map :=
        match decodeURIComponent (url c) with
        | Some decoded =>
            if negb (strictEq decoded (url c)) then <[decoded := index]> map
            else map
        | None => map
        end in
      match encodeURI (url c) with
      | Some encoded =>
          if negb (strictEq encoded (url c)) then <[encoded := index]> map
          else map
      | None => map
      end
  end.

(** [citations.forEach((c, index) => ...)] from [index] on. *)
Fixpoint forEach (map : gmap jsstring nat) (citations : list Citation)
    (index : nat) : gmap jsstring nat :=
  match citations with
  | [] => map
  | c :: citations' => forEach (addCitation map c index) citations' (S index)
  end.

Definition citationMap (citations : list Citation) : gmap jsstring nat :=
  forEach ∅ citations 0.

(** [/^#citation-target-(\d+)$/] *)
Definition targetPattern : regex :=
  Seq Bol (Seq (Lit (js "#citation-target-"))
    (Seq (Group (Plus (Class isDigit))) Eol)).

(** [/^#(?:ref-?)?(\d+)$/] *)
Definition linkPattern : regex :=
  Seq Bol (Seq (Char 35)
    (Seq (Opt (Seq (Lit (js "ref")) (Opt (Char 45))))
      (Seq (Group (Plus (Class isDigit))) Eol))).

(** [/^\s*(?:\[\d+\]|\^?\d+\^?)\s*$/] *)
Definition inlineCitationPattern : regex :=
  Seq Bol (Seq (Star (Class isWhiteSpace))
    (Seq (Alt (Seq (Char 91) (Seq (Plus (Class isDigit)) (Char 93)))
              (Seq (Opt (Char 94)) (Seq (Plus (Class isDigit)) (Opt (Char 94)))))
      (Seq (Star (Class isWhiteSpace)) Eol))).

(** What the renderer receives as [children]: one node or an array of
    nodes; a node is text, an element, [null] or [undefined]. *)
Inductive node :=
| NText (s : jsstring)
| NElement
| NNull
| NUndefined.

Inductive nodes :=
| One (n : node)
| Many (ns : list node).

(** [String(n)] *)
Definition nodeString (n : node) : jsstring :=
  match n with
  | NText s => s
  | NElement => js "[object Object]"
  | NNull => js "null"
  | NUndefined => js "undefined"
  end.

(** The string of an array entry under [join]. *)
Definition joinString (n : node) : jsstring :=
  match n with
  | NNull | NUndefined => []
  | _ => nodeString n
  end.

(** [Array.isArray(children) ? children.join("") : String(children)] *)
Definition childrenText (children : nodes) : jsstring :=
  match children with
  | Many ns => concat (joinString <$> ns)
  | One n => nodeString n
  end.

(** What the [a] renderer returns. *)
Inductive element :=
| TargetSpan (id : jsstring) (className : jsstring) (text : jsstring)
| MarkerAnchor (href : jsstring) (className : jsstring) (linkMatch1 : jsstring)
    (children : nodes)
| CitationLinkElement (href : jsstring) (citations : list Citation)
    (id : option jsstring) (children : nodes)
| LinkElement (href : option jsstring) (checkLinkCredibility : bool)
    (children : nodes).

Section Components.
Variable checkLinkCredibility : bool.
Variable citations : list Citation.

(** [components.a] *)
Definition a (href : option jsstring) (children : nodes) : element :=
  let hrefStr := default [] href in
  match strMatch hrefStr targetPattern with
  | Some targetMatch =>
      let index := group1 targetMatch in
      TargetSpan (js "ref-" ++ index)
        (js "font-bold text-primary scroll-mt-20")
        (js "[" ++ index ++ js "]")
  | None =>
      match strMatch hrefStr linkPattern with
      | Some linkMatch =>
          MarkerAnchor hrefStr
            (js "text-primary hover:underline cursor-pointer marker-link")
            (group1 linkMatch) children
      | None =>
          if 0 <? length citations then
            match citationMap citations !! hrefStr with
            | Some citationIndex =>
                let isInline :=
                  test inlineCitationPattern (childrenText children) in
                CitationLinkElement hrefStr citations
                  (if negb isInline
                   then Some (js "ref-" ++ toString (citationIndex + 1))
                   else None)
                  children
            | None => CitationLinkElement hrefStr citations None children
            end
          else LinkElement href checkLinkCredibility children
      end
  end.
End Components.

(** *** Clicks

    The document is known by the ids of its elements; a handler is known
    by what it does to the event and to the document. *)
Inductive effect :=
| PreventDefault
| ScrollIntoView (targetId : jsstring) (behavior block : jsstring).

Definition getElementById (document : list jsstring) (id : jsstring)
    : option jsstring :=
  if bool_decide (id ∈ document) then Some id else None.

(** The [onClick] of the anchor of an inline numeric reference, which
    closes over [linkMatch[1]]. *)
Definition markerOnClick (linkMatch1 : jsstring) (document : list jsstring)
    : list effect :=
  PreventDefault ::
    let targetId := js "ref-" ++ linkMatch1 in
    match getElementById document targetId with
    | Some element => [ScrollIntoView element (js "smooth") (js "start")]
    | None => []
    end.

(** The click on what [a] returned; only the anchor of an inline numeric
    reference has a handler of this file. *)
Definition onClick (e : element) (document : list jsstring)
    : option (list effect) :=
  match e with
  | MarkerAnchor _ _ linkMatch1 _ => Some (markerOnClick linkMatch1 document)
  | _ => None
  end.

(** [event.defaultPrevented] after the handler ran: the browser follows
    the link only when it is [false]. *)
Definition defaultPrevented (effects : list effect) : bool :=
  existsb (λ e, match e with PreventDefault => true | _ => false end) effects.

End Markdown.

(** ** What [CitationLink] and [CitationList] render *)

Module CitationView.
Import JSString Builtins CitationTsx Markdown.

(** The two returns of [CitationLink]: the regular link, which takes
    neither the [id] nor the hover card, and the anchor inside the hover
    card of the citation found. *)
Inductive linkView :=
| PlainAnchor (href : jsstring)
| HoverAnchor (id : option jsstring) (href : jsstring) (citation : Citation)
    (index : option nat).

Definition CitationLink (href : jsstring) (citations : list Citation)
    (id : option jsstring) : linkView :=
  let '(citation, index) := CitationLink_lookup href citations in
  match citation with
  | None => PlainAnchor href
  | Some citation => HoverAnchor id href citation index
  end.

(** [handleCitationClick], closed over [index]. *)
Definition handleCitationClick (index : option nat) (document : list jsstring)
    : list effect :=
  match index with
  | Some index =>
      let targetId := js "ref-" ++ toString (index + 1) in
      match getElementById document targetId with
      | Some element =>
          [PreventDefault; ScrollIntoView element (js "smooth") (js "start")]
      | None => []
      end
  | None => []
  end.

(** The click on what [CitationLink] returned: the regular link has no
    handler. *)
Definition linkOnClick (v : linkView) (document : list jsstring)
    : option (list effect) :=
  match v with
  | HoverAnchor _ _ _ index => Some (handleCitationClick index document)
  | PlainAnchor _ => None
  end.

(** What React makes of the element [a] returned, where it is a
    [CitationLink]. *)
Definition mount (e : element) : option linkView :=
  match e with
  | CitationLinkElement href citations id _ => Some (CitationLink href citations id)
  | _ => None
  end.

(** A row of [CitationList]: its React key, the number shown and the
    citation.  The key is given as [citation.url || index], the url or,
    for an empty url, the index; React keeps the key of an element as a
    string, so the index is kept as its decimal numeral, which a url can
    be too. *)
Record row := Row {
  key : jsstring;
  number : nat;
  shown : Citation
}.

Definition rowOf (index : nat) (citation : Citation) : row :=
  {| key := match url citation with
            | [] => toString index
            | _ :: _ => url citation
            end;
     number := index + 1;
     shown := citation |}.

(** [CitationList]: [None] is the [null] returned for no citations. *)
Definition CitationList (citations : list Citation) : option (list row) :=
  match citations with
  | [] => None
  | _ :: _ => Some (imap rowOf citations)
  end.

End CitationView.

(** ** The patterns read as functions

    What the matcher computes on the three patterns, without backtracking:
    shown equal to the matcher in [PatternFacts], and the form in which the
    patterns are compared with the words of the specification. *)

Module Patterns.
Import JSString Builtins Regex.

(** A continuation that fails wherever a [p] character comes next: after
    it a greedy run of [p] never gives a character back. *)
Definition stops (p : N → bool) (k : cont) : Prop :=
  ∀ pos c s cap, p c = true → k pos (c :: s) cap = None.

(** A match that leaves the capture as it is, or none. *)
Definition ok (cap : option jsstring) (b : bool) : option (option jsstring) :=
  if b then Some cap else None.

(** The continuation [k] succeeds exactly on the rests of the input that
    [rest] accepts. *)
Definition reads (k : cont) (rest : jsstring → bool) : Prop :=
  ∀ pos s cap, k pos s cap = ok cap (rest s).

(** [(\d+)$] *)
Definition digitsToEnd (s : jsstring) : bool :=
  (0 <? length s) && forallb isDigit s.

Definition captureDigits (s : jsstring) : option (option jsstring) :=
  if digitsToEnd s then Some (Some s) else None.

(** [\s*$] *)
Definition spaceToEnd (s : jsstring) : bool := forallb isWhiteSpace s.

(** [targetPattern] *)
Definition targetDigits (hrefStr : jsstring) : option (option jsstring) :=
  if startsWith hrefStr (js "#citation-target-")
  then captureDigits (drop 17 hrefStr)
  else None.

(** [-?(\d+)$] *)
Definition hyphenDigits (s : jsstring) : option (option jsstring) :=
  match match s with
        | c :: s' => if (45 =? c)%N then captureDigits s' else None
        | [] => None
        end with
  | Some x => Some x
  | None => captureDigits s
  end.

(** [(?:ref-?)?(\d+)$] *)
Definition refDigits (s : jsstring) : option (option jsstring) :=
  match (if startsWith s (js "ref") then hyphenDigits (drop 3 s) else None) with
  | Some x => Some x
  | None => captureDigits s
  end.

(** [linkPattern] *)
Definition linkDigits (hrefStr : jsstring) : option (option jsstring) :=
  match hrefStr with
  | c :: s => if (35 =? c)%N then refDigits s else None
  | [] => None
  end.

(** [\d+] followed by [rest] *)
Definition digitsThen (rest : jsstring → bool) (s : jsstring) : bool :=
  (0 <? run isDigit s) && rest (drop (run isDigit s) s).

(** One given character followed by [rest] *)
Definition charThen (c : N) (rest : jsstring → bool) (s : jsstring) : bool :=
  match s with
  | d :: s' => (c =? d)%N && rest s'
  | [] => false
  end.

(** [\[\d+\]\s*$] *)
Definition bracketed : jsstring → bool :=
  charThen 91 (digitsThen (charThen 93 spaceToEnd)).

(** [\d+\^?\s*$] *)
Definition numberCaret : jsstring → bool :=
  digitsThen (λ s, charThen 94 spaceToEnd s || spaceToEnd s).

(** [\^?\d+\^?\s*$] *)
Definition careted (s : jsstring) : bool :=
  charThen 94 numberCaret s || numberCaret s.

(** [inlineCitationPattern] *)
Definition inlineMarker (text : jsstring) : bool :=
  let s := drop (run isWhiteSpace text) text in
  bracketed s || careted s.

End Patterns.

(** ** The words of the specification *)

Module Spec.
Import Builtins Markdown.

(** One or more decimal digits. *)
Definition decimalDigits (ds : jsstring) : Prop :=
  ds ≠ [] ∧ forallb isDigit ds = true.

Definition whiteSpace (ws : jsstring) : Prop :=
  forallb isWhiteSpace ws = true.

(** "One or more digits alone, digits wrapped in a single pair of square
    brackets, digits with a leading and/or trailing caret, all with
    optional surrounding whitespace." *)
Definition shortNumericMarker (text : jsstring) : Prop :=
  ∃ before ds after core,
    text = before ++ core ++ after ∧
    whiteSpace before ∧ whiteSpace after ∧ decimalDigits ds ∧
    (core = ds ∨ core = js "[" ++ ds ++ js "]" ∨
     core = js "^" ++ ds ∨ core = ds ++ js "^" ∨
     core = js "^" ++ ds ++ js "^").

(** "Hash, literal text citation-target-, then one or more decimal
    digits, with nothing else." *)
Definition referenceTarget (href ds : jsstring) : Prop :=
  href = js "#citation-target-" ++ ds ∧ decimalDigits ds.

(** "Hash, optional literal ref, optional hyphen, then one or more
    decimal digits, with nothing else." *)
Definition inlineNumericReference (href ds : jsstring) : Prop :=
  ∃ ref hyphen,
    href = js "#" ++ ref ++ hyphen ++ ds ∧
    (ref = [] ∨ ref = js "ref") ∧ (hyphen = [] ∨ hyphen = js "-") ∧
    decimalDigits ds.

(** The same with the hyphen allowed only after [ref], which is what
    [/^#(?:ref-?)?(\d+)$/] accepts. *)
Definition inlineNumericReferenceGrouped (href ds : jsstring) : Prop :=
  ∃ opening,
    href = opening ++ ds ∧
    (opening = js "#" ∨ opening = js "#ref" ∨ opening = js "#ref-") ∧
    decimalDigits ds.

Section Indices.
Context {A : Type}.

(** [i] is the smallest index of [l] whose entry satisfies [P]. *)
Definition earliest (P : A → Prop) (l : list A) (i : nat) : Prop :=
  (∃ x, l !! i = Some x ∧ P x) ∧
  ∀ j y, j < i → l !! j = Some y → ¬ P y.

(** [i] is the largest index of [l] whose entry satisfies [P]. *)
Definition latest (P : A → Prop) (l : list A) (i : nat) : Prop :=
  (∃ x, l !! i = Some x ∧ P x) ∧
  ∀ j y, i < j → l !! j = Some y → ¬ P y.
End Indices.

(** The keys a citation is entered under: its url, the decoded url and
    the encoded url where they exist and differ from it; none for an
    empty url. *)
Definition forms (c : Citation) : list jsstring :=
  match url c with
  | [] => []
  | _ :: _ =>
      url c ::
      match decodeURIComponent (url c) with
      | Some decoded => if bool_decide (decoded = url c) then [] else [decoded]
      | None => []
      end ++
      match encodeURI (url c) with
      | Some encoded => if bool_decide (encoded = url c) then [] else [encoded]
      | None => []
      end
  end.

(** No key is a form of two citations at different indices. *)
Definition collisionFree (citations : list Citation) : Prop :=
  ∀ i j ci cj key,
    citations !! i = Some ci → citations !! j = Some cj →
    key ∈ forms ci → key ∈ forms cj → i = j.

(** "First-writer-wins per key": the key maps to the earliest citation
    one of whose forms it is. *)
Definition firstWriterWins (index : list Citation → gmap jsstring nat) : Prop :=
  ∀ citations key i,
    earliest (λ c, key ∈ forms c) citations i → index citations !! key = Some i.




End Spec.

(** ** Occurrences of a text inside another *)

Module Occurrence.
Import JSString.

(** [p] occurs in [s] at index [i]. *)
Definition occursAt (p s : jsstring) (i : nat) : Prop :=
  startsWith (drop i s) p = true.

(** [s] has no three backticks in a row. *)
Definition tripleFree (s : jsstring) : Prop :=
  ∀ i, ¬ occursAt (js "```") s i.

(** [p] has three backticks in a row from index [k] on. *)
Definition hasTripleAt (p : jsstring) (k : nat) : Prop :=
  p !! k = Some 96%N ∧ p !! (k + 1) = Some 96%N ∧ p !! (k + 2) = Some 96%N.

End Occurrence.

(** ** Well-formed strings *)

Module WellFormed.
Import Builtins.

(** Every entry is a code unit. *)
Definition codeUnits (s : jsstring) : Prop := Forall (λ c, (c < 65536)%N) s.

(** No percent sign. *)
Definition percentFree (s : jsstring) : Prop := Forall (λ c, c ≠ 37%N) s.

(** A Unicode scalar value. *)
Definition scalar (cp : N) : Prop :=
  (cp ≤ 1114111 ∧ (cp < 55296 ∨ 57343 < cp))%N.

End WellFormed.

(** ** Texts that differ only by white space or by percent-encoding *)

Module Variants.
Import Builtins Spec WellFormed.

(** [s] is [core] with white space before and after it. *)
Definition padded (core s : jsstring) : Prop :=
  ∃ before after,
    s = before ++ core ++ after ∧ whiteSpace before ∧ whiteSpace after.

(** "Differing only by leading/trailing whitespace." *)
Definition sameButWhiteSpace (s t : jsstring) : Prop :=
  ∃ core, padded core s ∧ padded core t.

(** [escaped] is a percent-encoding of the text [plain], which has no
    percent sign of its own. *)
Definition percentEncodingOf (plain escaped : jsstring) : Prop :=
  percentFree plain ∧ decodeURIComponent escaped = Some plain.

End Variants.

(** * Properties *)

(** ** Regular expressions: the patterns as functions *)

Module RegexFacts.
Import JSString Builtins Regex Patterns.

Lemma startsWith_take s p : startsWith s p = true → take (length p) s = p.
Proof.
  revert s. induction p as [|c p IH]; intros [|d s]; simpl; try done.
  intros [->%N.eqb_eq H]%andb_true_iff. by rewrite IH.
Qed.

Lemma startsWith_app p s : startsWith (p ++ s) p = true.
Proof.
  induction p as [|c p IH]; [by destruct s|].
  simpl. by rewrite N.eqb_refl.
Qed.

Lemma startsWith_inv s p :
  startsWith s p = true → s = p ++ drop (length p) s.
Proof.
  intros H. rewrite <- (startsWith_take _ _ H) at 1. by rewrite take_drop.
Qed.

(** *** Runs of a character class *)

Lemma run_le p s : run p s ≤ length s.
Proof. induction s as [|c s IH]; simpl; [lia|]. destruct (p c); simpl; lia. Qed.

Lemma run_take p s : forallb p (take (run p s) s) = true.
Proof.
  induction s as [|c s IH]; simpl; [done|].
  destruct (p c) eqn:E; simpl; [|done]. by rewrite E.
Qed.

Lemma run_all p s : forallb p s = true → run p s = length s.
Proof.
  induction s as [|c s IH]; simpl; [done|].
  intros [-> H]%andb_true_iff. by rewrite IH.
Qed.

Lemma run_app p s1 s2 :
  forallb p s1 = true → run p (s1 ++ s2) = length s1 + run p s2.
Proof.
  induction s1 as [|c s1 IH]; simpl; [done|].
  intros [-> H]%andb_true_iff. by rewrite IH.
Qed.

Lemma drop_run_nil p s : drop (run p s) s = [] ↔ forallb p s = true.
Proof.
  induction s as [|c s IH]; simpl; [done|].
  destruct (p c); simpl; [done|]. split; done.
Qed.

Lemma run_stop p s : run p (drop (run p s) s) = 0.
Proof.
  induction s as [|c s IH]; simpl; [done|].
  destruct (p c) eqn:E; simpl; [done|]. by rewrite E.
Qed.

(** *** The matcher on the shapes the patterns are made of *)

Lemma m_Lit l pos s cap k :
  m (Lit l) pos s cap k
  = if startsWith s l then k (pos + length l) (drop (length l) s) cap else None.
Proof.
  revert pos s. induction l as [|c l IH]; intros pos s.
  - simpl. by rewrite Nat.add_0_r.
  - change (Lit (c :: l)) with (Seq (Char c) (Lit l)).
    destruct s as [|d s]; [done|]. cbn [m startsWith length drop].
    destruct (c =? d)%N; [|done]. rewrite IH.
    by replace (pos + S (length l)) with (S pos + length l) by lia.
Qed.

Lemma iterate_Class p k n pos s cap :
  stops p k → length s ≤ n →
  iterate (m (Class p)) k n pos s cap
  = k (pos + run p s) (drop (run p s) s) cap.
Proof.
  intros Hk. revert pos s.
  induction n as [|n IH]; intros pos [|c s] Hn; simpl in *;
    rewrite ?Nat.add_0_r; try done; try lia.
  destruct (p c) eqn:E; [|by rewrite Nat.add_0_r].
  replace (pos <? S pos) with true by (symmetry; apply Nat.ltb_lt; lia).
  rewrite IH by lia.
  replace (pos + S (run p s)) with (S pos + run p s) by lia.
  destruct (k _ _ _); [done|]. by rewrite Hk.
Qed.

Lemma m_Star_Class p pos s cap k :
  stops p k →
  m (Star (Class p)) pos s cap k = k (pos + run p s) (drop (run p s) s) cap.
Proof. intros Hk. cbn [m]. by apply iterate_Class. Qed.

Lemma m_Plus_Class p pos s cap k :
  stops p k →
  m (Plus (Class p)) pos s cap k
  = if 0 <? run p s then k (pos + run p s) (drop (run p s) s) cap else None.
Proof.
  intros Hk. unfold Plus.
  change (m (Seq ?r1 ?r2) pos s cap k)
    with (m r1 pos s cap (λ pos' s' cap', m r2 pos' s' cap' k)).
  destruct s as [|c s]; [done|]. cbn [m run].
  destruct (p c); [|done]. cbn [Nat.ltb Nat.leb drop].
  etrans; [apply (iterate_Class p k _ _ _ _ Hk (le_n _))|].
  by replace (pos + S (run p s)) with (S pos + run p s) by lia.
Qed.

(** A pattern that starts with [^] matches at index 0 or nowhere. *)
Lemma execFrom_Bol_later r pos s : execFrom (Seq Bol r) (S pos) s = None.
Proof.
  revert pos. induction s as [|c s IH]; intros pos; cbn [execFrom m]; simpl;
    [done|apply IH].
Qed.

Lemma execFrom_Bol r s : execFrom (Seq Bol r) 0 s = m r 0 s None found.
Proof.
  destruct s as [|c s]; cbn [execFrom m]; simpl; destruct (m r 0 _ None found);
    try done.
  apply execFrom_Bol_later.
Qed.

Lemma m_digits_Eol pos s cap :
  m (Seq (Group (Plus (Class isDigit))) Eol) pos s cap found
  = if (0 <? length s) && forallb isDigit s then Some (Some s) else None.
Proof.
  change (m (Seq (Group ?r1) ?r2) pos s cap found)
    with (m r1 pos s cap
            (λ pos' s' _, m r2 pos' s' (Some (take (pos' - pos) s)) found)).
  rewrite m_Plus_Class by (by intros ????).
  pose proof (run_le isDigit s). pose proof (drop_run_nil isDigit s) as Hd.
  destruct (forallb isDigit s) eqn:Hall.
  - rewrite (run_all _ _ Hall), drop_all. cbn [m found].
    destruct (0 <? length s); [|done].
    by rewrite Nat.add_comm, Nat.add_sub, firstn_all.
  - rewrite andb_false_r. destruct (0 <? run isDigit s); [|done].
    destruct (drop (run isDigit s) s); [|done].
    destruct Hd as [Hd _]. by specialize (Hd eq_refl).
Qed.

End RegexFacts.

(** ** The patterns as functions *)

Module PatternFacts.
Import JSString Builtins Regex RegexFacts Markdown Patterns.

Lemma m_Seq r1 r2 pos s cap k :
  m (Seq r1 r2) pos s cap k = m r1 pos s cap (λ pos' s' cap', m r2 pos' s' cap' k).
Proof. done. Qed.

Lemma m_Opt r pos s cap k :
  m (Opt r) pos s cap k
  = match m r pos s cap k with Some x => Some x | None => k pos s cap end.
Proof. done. Qed.

Lemma m_Alt r1 r2 pos s cap k :
  m (Alt r1 r2) pos s cap k
  = match m r1 pos s cap k with Some x => Some x | None => m r2 pos s cap k end.
Proof. done. Qed.

Lemma m_Char c pos s cap k :
  m (Char c) pos s cap k
  = match s with
    | d :: s' => if (c =? d)%N then k (S pos) s' cap else None
    | [] => None
    end.
Proof. done. Qed.

Lemma m_captureDigits pos s cap :
  m (Seq (Group (Plus (Class isDigit))) Eol) pos s cap found = captureDigits s.
Proof. apply m_digits_Eol. Qed.

(** *** Character classes *)

Lemma isDigit_range c : isDigit c = true ↔ (48 ≤ c ≤ 57)%N.
Proof. unfold isDigit. rewrite andb_true_iff, !N.leb_le. lia. Qed.

Lemma isWhiteSpace_range c :
  isWhiteSpace c = true →
  (9 ≤ c ≤ 13 ∨ c = 32 ∨ c = 160 ∨ c = 5760 ∨ 8192 ≤ c ≤ 8202 ∨ c = 8232
   ∨ c = 8233 ∨ c = 8239 ∨ c = 8287 ∨ c = 12288 ∨ c = 65279)%N.
Proof.
  unfold isWhiteSpace.
  rewrite !orb_true_iff, !andb_true_iff, !N.leb_le, !N.eqb_eq. lia.
Qed.

Lemma digit_not_space c : isDigit c = true → isWhiteSpace c = false.
Proof.
  intros H%isDigit_range. destruct (isWhiteSpace c) eqn:E; [|done].
  apply isWhiteSpace_range in E. lia.
Qed.

Lemma space_not_digit c : isWhiteSpace c = true → isDigit c = false.
Proof.
  intros H. destruct (isDigit c) eqn:E; [|done].
  apply digit_not_space in E. congruence.
Qed.

Lemma digit_not_char c d :
  isDigit c = true → (d < 48 ∨ 57 < d)%N → (d =? c)%N = false.
Proof. intros H%isDigit_range ?. apply N.eqb_neq. lia. Qed.

Lemma space_not_char c d :
  isWhiteSpace c = true → (d = 91 ∨ d = 94)%N → (d =? c)%N = false.
Proof. intros H%isWhiteSpace_range ?. apply N.eqb_neq. lia. Qed.

(** *** Continuations and what they read *)

Lemma reads_end :
  reads (λ pos s cap, m (Seq (Star (Class isWhiteSpace)) Eol) pos s cap found)
    spaceToEnd.
Proof.
  intros pos s cap. rewrite m_Seq, m_Star_Class by (by intros ????).
  unfold spaceToEnd. pose proof (drop_run_nil isWhiteSpace s) as Hd.
  destruct (forallb isWhiteSpace s).
  - destruct Hd as [_ Hd]. by rewrite Hd.
  - destruct (drop _ s); [|done]. destruct Hd as [Hd _]. by specialize (Hd eq_refl).
Qed.

Lemma reads_char c k rest :
  reads k rest → reads (λ pos s cap, m (Char c) pos s cap k) (charThen c rest).
Proof.
  intros Hk pos [|d s] cap; [done|]. cbn [m charThen].
  destruct (c =? d)%N; [|done]. apply Hk.
Qed.

Lemma reads_stops p k rest :
  reads k rest → (∀ c s, p c = true → rest (c :: s) = false) → stops p k.
Proof. intros Hk Hrest pos c s cap Hc. by rewrite Hk, Hrest. Qed.

Lemma reads_digits k rest :
  reads k rest → (∀ c s, isDigit c = true → rest (c :: s) = false) →
  reads (λ pos s cap, m (Plus (Class isDigit)) pos s cap k) (digitsThen rest).
Proof.
  intros Hk Hrest pos s cap.
  rewrite m_Plus_Class by (by eapply reads_stops).
  unfold digitsThen. destruct (0 <? run isDigit s); [|done]. apply Hk.
Qed.

Lemma reads_spaces k rest :
  reads k rest → (∀ c s, isWhiteSpace c = true → rest (c :: s) = false) →
  reads (λ pos s cap, m (Star (Class isWhiteSpace)) pos s cap k)
    (λ s, rest (drop (run isWhiteSpace s) s)).
Proof.
  intros Hk Hrest pos s cap.
  rewrite m_Star_Class by (by eapply reads_stops). apply Hk.
Qed.

Lemma reads_either (k1 k2 : cont) rest1 rest2 :
  reads k1 rest1 → reads k2 rest2 →
  reads (λ pos s cap,
           match k1 pos s cap with Some x => Some x | None => k2 pos s cap end)
    (λ s, rest1 s || rest2 s).
Proof.
  intros H1 H2 pos s cap. rewrite H1, H2. by destruct (rest1 s), (rest2 s).
Qed.

Lemma reads_ext k rest rest' :
  reads k rest → (∀ s, rest s = rest' s) → reads k rest'.
Proof. intros Hk E pos s cap. by rewrite Hk, E. Qed.

Lemma numberCaret_reads :
  reads (λ pos s cap,
           m (Seq (Plus (Class isDigit)) (Opt (Char 94))) pos s cap
             (λ pos' s' cap',
                m (Seq (Star (Class isWhiteSpace)) Eol) pos' s' cap' found))
    numberCaret.
Proof.
  apply (reads_digits
           (λ pos s cap, m (Opt (Char 94)) pos s cap
              (λ pos' s' cap',
                 m (Seq (Star (Class isWhiteSpace)) Eol) pos' s' cap' found))).
  - apply (reads_either
             (λ pos s cap, m (Char 94) pos s cap
                (λ pos' s' cap',
                   m (Seq (Star (Class isWhiteSpace)) Eol) pos' s' cap' found))).
    + apply reads_char, reads_end.
    + apply reads_end.
  - intros c s Hc. cbn [charThen spaceToEnd forallb].
    rewrite (digit_not_char c 94 Hc), (digit_not_space c Hc) by lia. done.
Qed.

Lemma bracketed_reads :
  reads (λ pos s cap,
           m (Seq (Char 91) (Seq (Plus (Class isDigit)) (Char 93))) pos s cap
             (λ pos' s' cap',
                m (Seq (Star (Class isWhiteSpace)) Eol) pos' s' cap' found))
    bracketed.
Proof.
  apply (reads_char 91
           (λ pos s cap, m (Plus (Class isDigit)) pos s cap
              (λ pos' s' cap', m (Char 93) pos' s' cap'
                 (λ pos'' s'' cap'',
                    m (Seq (Star (Class isWhiteSpace)) Eol) pos'' s'' cap'' found)))).
  apply reads_digits.
  - apply reads_char, reads_end.
  - intros c s Hc. cbn [charThen]. by rewrite (digit_not_char c 93 Hc) by lia.
Qed.

Lemma careted_reads :
  reads (λ pos s cap,
           m (Seq (Opt (Char 94)) (Seq (Plus (Class isDigit)) (Opt (Char 94))))
             pos s cap
             (λ pos' s' cap',
                m (Seq (Star (Class isWhiteSpace)) Eol) pos' s' cap' found))
    careted.
Proof.
  apply (reads_either
           (λ pos s cap, m (Char 94) pos s cap
              (λ pos' s' cap',
                 m (Seq (Plus (Class isDigit)) (Opt (Char 94))) pos' s' cap'
                   (λ pos'' s'' cap'',
                      m (Seq (Star (Class isWhiteSpace)) Eol) pos'' s'' cap'' found)))).
  - apply reads_char, numberCaret_reads.
  - apply numberCaret_reads.
Qed.

Lemma digitsThen_stop rest c s :
  isDigit c = false → digitsThen rest (c :: s) = false.
Proof. intros H. unfold digitsThen. cbn [run]. by rewrite H. Qed.

Lemma test_inlineCitationPattern text :
  test inlineCitationPattern text = inlineMarker text.
Proof.
  unfold test, inlineCitationPattern. rewrite execFrom_Bol.
  assert (reads (λ pos s cap,
                   m (Seq (Star (Class isWhiteSpace))
                        (Seq (Alt (Seq (Char 91)
                                     (Seq (Plus (Class isDigit)) (Char 93)))
                                (Seq (Opt (Char 94))
                                   (Seq (Plus (Class isDigit)) (Opt (Char 94)))))
                           (Seq (Star (Class isWhiteSpace)) Eol)))
                     pos s cap found)
            inlineMarker) as H.
  { apply (reads_spaces
             (λ pos s cap,
                m (Seq (Alt (Seq (Char 91)
                               (Seq (Plus (Class isDigit)) (Char 93)))
                          (Seq (Opt (Char 94))
                             (Seq (Plus (Class isDigit)) (Opt (Char 94)))))
                     (Seq (Star (Class isWhiteSpace)) Eol)) pos s cap found)
             (λ s, bracketed s || careted s)).
    - apply (reads_either _ _ _ _ bracketed_reads careted_reads).
    - intros c s Hc. unfold bracketed, careted, numberCaret.
      cbn [charThen].
      rewrite !(space_not_char c _ Hc) by lia.
      by rewrite digitsThen_stop by by apply space_not_digit. }
  rewrite H. by destruct (inlineMarker text).
Qed.

Lemma strMatch_targetPattern hrefStr :
  strMatch hrefStr targetPattern = targetDigits hrefStr.
Proof.
  unfold strMatch, targetPattern, targetDigits. rewrite execFrom_Bol.
  rewrite m_Seq, m_Lit. destruct (startsWith _ _); [|done].
  by rewrite m_captureDigits.
Qed.

Lemma strMatch_linkPattern hrefStr :
  strMatch hrefStr linkPattern = linkDigits hrefStr.
Proof.
  unfold strMatch, linkPattern, linkDigits. rewrite execFrom_Bol.
  rewrite m_Seq, m_Char. destruct hrefStr as [|c s]; [done|].
  destruct (35 =? c)%N; [|done]. unfold refDigits, hyphenDigits.
  rewrite m_Seq, m_Opt, m_captureDigits, m_Seq, m_Lit.
  destruct (startsWith s (js "ref")); [|done].
  rewrite m_Opt, m_Char, m_captureDigits.
  change (length (js "ref")) with 3.
  destruct (drop 3 s) as [|d s']; [done|].
  destruct (45 =? d)%N; [|done]. by rewrite m_captureDigits.
Qed.

End PatternFacts.

(** ** The patterns and the words of the specification *)

Module SpecFacts.
Import JSString Builtins Regex RegexFacts Markdown Patterns PatternFacts Spec.

Lemma decimalDigits_toEnd ds : decimalDigits ds ↔ digitsToEnd ds = true.
Proof.
  unfold decimalDigits, digitsToEnd. rewrite andb_true_iff, Nat.ltb_lt.
  destruct ds; simpl; split; intros [? ?]; split; try done; lia.
Qed.

Lemma decimalDigits_head ds :
  decimalDigits ds → ∃ c ds', ds = c :: ds' ∧ isDigit c = true.
Proof.
  intros [Hne Hall]. destruct ds as [|c ds']; [done|].
  apply andb_true_iff in Hall as [? _]. eauto.
Qed.

Lemma captureDigits_Some s x :
  captureDigits s = Some x ↔ decimalDigits s ∧ x = Some s.
Proof.
  unfold captureDigits. rewrite decimalDigits_toEnd.
  destruct (digitsToEnd s); split; try done.
  - intros [= <-]. done.
  - intros [_ ->]. done.
  - intros [? _]. done.
Qed.

Lemma captureDigits_digits ds :
  decimalDigits ds → captureDigits ds = Some (Some ds).
Proof. intros H. by apply captureDigits_Some. Qed.

(** *** The reference target pattern *)

Lemma targetDigits_Some href x :
  targetDigits href = Some x ↔ ∃ ds, referenceTarget href ds ∧ x = Some ds.
Proof.
  unfold targetDigits, referenceTarget. split.
  - destruct (startsWith href _) eqn:E; [|done].
    intros [Hd ->]%captureDigits_Some. apply startsWith_inv in E.
    exists (drop 17 href). done.
  - intros (ds & [-> Hd] & ->). rewrite startsWith_app.
    change 17 with (length (js "#citation-target-")).
    rewrite drop_app_length. by apply captureDigits_digits.
Qed.

(** *** The inline reference pattern *)

Lemma refDigits_digits ds : decimalDigits ds → refDigits ds = Some (Some ds).
Proof.
  intros Hd. destruct (decimalDigits_head ds Hd) as (c & ds' & -> & Hc).
  unfold refDigits. cbn [startsWith js fmap list_fmap list_ascii_of_string].
  replace (N_of_ascii "r" =? c)%N with false
    by (symmetry; apply (digit_not_char c 114 Hc); lia).
  cbn [andb]. by apply captureDigits_digits.
Qed.

Lemma hyphenDigits_digits ds : decimalDigits ds → hyphenDigits ds = Some (Some ds).
Proof.
  intros Hd. destruct (decimalDigits_head ds Hd) as (c & ds' & -> & Hc).
  unfold hyphenDigits. rewrite (digit_not_char c 45 Hc) by lia.
  by apply captureDigits_digits.
Qed.

Lemma linkDigits_Some href x :
  linkDigits href = Some x ↔
  ∃ ds, inlineNumericReferenceGrouped href ds ∧ x = Some ds.
Proof.
  unfold inlineNumericReferenceGrouped. split.
  - destruct href as [|c s]; [done|]. cbn [linkDigits].
    destruct (N.eqb_spec 35 c) as [<-|]; [|done]. unfold refDigits.
    destruct (startsWith s (js "ref")) eqn:E.
    + apply startsWith_inv in E. change (length (js "ref")) with 3 in E.
      unfold hyphenDigits.
      destruct (drop 3 s) as [|d s'] eqn:Ed.
      * intros [Hd ->]%captureDigits_Some. exists s. split; [|done].
        exists (js "#"). naive_solver.
      * destruct (N.eqb_spec 45 d) as [<-|].
        -- destruct (captureDigits s') eqn:Es'.
           ++ intros [= <-]. apply captureDigits_Some in Es' as [Hd ->].
              exists s'. split; [|done]. exists (js "#ref-").
              split; [by rewrite E|]. naive_solver.
           ++ destruct (captureDigits (45%N :: s')) eqn:Es.
              ** intros [= <-]. apply captureDigits_Some in Es as [Hd ->].
                 exists (45%N :: s'). split; [|done]. exists (js "#ref").
                 split; [by rewrite E|]. naive_solver.
              ** intros [Hd ->]%captureDigits_Some. exists s. split; [|done].
                 exists (js "#"). naive_solver.
        -- destruct (captureDigits (d :: s')) eqn:Es.
           ++ intros [= <-]. apply captureDigits_Some in Es as [Hd ->].
              exists (d :: s'). split; [|done]. exists (js "#ref").
              split; [by rewrite E|]. naive_solver.
           ++ intros [Hd ->]%captureDigits_Some. exists s. split; [|done].
              exists (js "#"). naive_solver.
    + intros [Hd ->]%captureDigits_Some. exists s. split; [|done].
      exists (js "#"). naive_solver.
  - intros (ds & [opening [-> [Hop Hd]]] & ->).
    destruct Hop as [-> | [-> | ->]].
    + change (js "#" ++ ds) with (35%N :: ds). cbn [linkDigits].
      rewrite N.eqb_refl. by apply refDigits_digits.
    + change (js "#ref" ++ ds) with (35%N :: js "ref" ++ ds). cbn [linkDigits].
      rewrite N.eqb_refl. unfold refDigits.
      rewrite startsWith_app.
      change 3 with (length (js "ref")). rewrite drop_app_length.
      by rewrite hyphenDigits_digits.
    + change (js "#ref-" ++ ds) with (35%N :: js "ref" ++ 45%N :: ds).
      cbn [linkDigits]. rewrite N.eqb_refl. unfold refDigits.
      rewrite startsWith_app.
      change 3 with (length (js "ref")). rewrite drop_app_length.
      unfold hyphenDigits. rewrite N.eqb_refl.
      by rewrite captureDigits_digits.
Qed.

(** The inline reference pattern does not match where the reference
    target pattern does, and the other way round. *)
Lemma grouped_not_target href ds :
  inlineNumericReferenceGrouped href ds → targetDigits href = None.
Proof.
  intros [opening [-> [Hop Hd]]].
  destruct (decimalDigits_head ds Hd) as (c & ds' & -> & Hc).
  unfold targetDigits.
  destruct Hop as [-> | [-> | ->]]; cbn [js fmap list_fmap list_ascii_of_string app startsWith];
    try done.
  replace (N_of_ascii "c" =? c)%N with false
    by (symmetry; apply (digit_not_char c 99 Hc); lia).
  done.
Qed.

Lemma not_target href :
  targetDigits href = None ↔ ∀ ds, ¬ referenceTarget href ds.
Proof.
  split.
  - intros E ds Hd.
    assert (targetDigits href = Some (Some ds)) by (apply targetDigits_Some; eauto).
    congruence.
  - intros H. destruct (targetDigits href) as [x|] eqn:E; [|done].
    apply targetDigits_Some in E as (ds & Hd & _). by destruct (H ds).
Qed.

Lemma not_grouped href :
  linkDigits href = None ↔ ∀ ds, ¬ inlineNumericReferenceGrouped href ds.
Proof.
  split.
  - intros E ds Hd.
    assert (linkDigits href = Some (Some ds)) by (apply linkDigits_Some; eauto).
    congruence.
  - intros H. destruct (linkDigits href) as [x|] eqn:E; [|done].
    apply linkDigits_Some in E as (ds & Hd & _). by destruct (H ds).
Qed.

(** *** The inline marker pattern *)

Lemma digitsThen_app rest ds s :
  decimalDigits ds → run isDigit s = 0 → digitsThen rest (ds ++ s) = rest s.
Proof.
  intros [Hne Hall] Hs. unfold digitsThen.
  rewrite (run_app _ _ _ Hall), Hs, Nat.add_0_r, drop_app_length.
  destruct ds; [done|]. done.
Qed.

Lemma digitsThen_inv rest s :
  digitsThen rest s = true →
  ∃ ds s', s = ds ++ s' ∧ decimalDigits ds ∧ rest s' = true.
Proof.
  unfold digitsThen. intros [Hrun Hrest]%andb_true_iff.
  exists (take (run isDigit s) s), (drop (run isDigit s) s).
  split; [by rewrite take_drop|]. split; [|done]. split; [|apply run_take].
  apply Nat.ltb_lt in Hrun. destruct s as [|c s]; simpl in *; [lia|].
  destruct (isDigit c); [done|lia].
Qed.

Lemma charThen_inv c rest s :
  charThen c rest s = true → ∃ s', s = c :: s' ∧ rest s' = true.
Proof.
  destruct s as [|d s]; [done|]. cbn [charThen].
  intros [->%N.eqb_eq ?]%andb_true_iff. eauto.
Qed.

Lemma whiteSpace_no_digit ws : whiteSpace ws → run isDigit ws = 0.
Proof.
  destruct ws as [|c ws]; [done|]. unfold whiteSpace. cbn [forallb run].
  intros [Hc _]%andb_true_iff. by rewrite (space_not_digit c Hc).
Qed.

Lemma numberCaret_plain ds after :
  decimalDigits ds → whiteSpace after → numberCaret (ds ++ after) = true.
Proof.
  intros Hd Ha. unfold numberCaret.
  rewrite digitsThen_app by auto using whiteSpace_no_digit.
  unfold spaceToEnd. rewrite Ha. apply orb_true_r.
Qed.

Lemma numberCaret_caret ds after :
  decimalDigits ds → whiteSpace after →
  numberCaret (ds ++ 94%N :: after) = true.
Proof.
  intros Hd Ha. unfold numberCaret. rewrite digitsThen_app by done.
  cbn [charThen]. unfold spaceToEnd. by rewrite Ha.
Qed.

Lemma numberCaret_inv s :
  numberCaret s = true →
  ∃ ds after, decimalDigits ds ∧ whiteSpace after ∧
    (s = ds ++ after ∨ s = ds ++ 94%N :: after).
Proof.
  intros (ds & s' & -> & Hd & [H|H]%orb_true_iff)%digitsThen_inv.
  - apply charThen_inv in H as (after & -> & Ha). exists ds, after. auto.
  - exists ds, s'. auto.
Qed.

Lemma inlineMarker_app before s :
  whiteSpace before → run isWhiteSpace s = 0 →
  inlineMarker (before ++ s) = bracketed s || careted s.
Proof.
  intros Hb Hs. unfold inlineMarker.
  by rewrite (run_app _ _ _ Hb), Hs, Nat.add_0_r, drop_app_length.
Qed.

Lemma marker_parts before ds after core :
  whiteSpace before → whiteSpace after → decimalDigits ds →
  (core = ds ∨ core = js "[" ++ ds ++ js "]" ∨ core = js "^" ++ ds
   ∨ core = ds ++ js "^" ∨ core = js "^" ++ ds ++ js "^") →
  shortNumericMarker (before ++ core ++ after).
Proof. intros. exists before, ds, after, core. auto. Qed.

Lemma inlineMarker_marker text :
  inlineMarker text = true ↔ shortNumericMarker text.
Proof.
  split.
  - unfold inlineMarker. intros H.
    pose proof (run_take isWhiteSpace text) as Hb.
    rewrite <- (take_drop (run isWhiteSpace text) text).
    set (before := take (run isWhiteSpace text) text) in *.
    set (s := drop (run isWhiteSpace text) text) in *. clearbody before s.
    apply orb_true_iff in H as [H|H].
    + apply charThen_inv in H as (s1 & -> & H).
      apply digitsThen_inv in H as (ds & s2 & -> & Hd & H).
      apply charThen_inv in H as (after & -> & Ha).
      replace (91%N :: ds ++ 93%N :: after)
        with ((js "[" ++ ds ++ js "]") ++ after)
        by (change (js "[") with [91%N]; change (js "]") with [93%N];
            by rewrite <- !app_assoc).
      apply (marker_parts before ds); auto.
    + apply orb_true_iff in H as [H|H].
      * apply charThen_inv in H as (s1 & -> & H).
        apply numberCaret_inv in H as (ds & after & Hd & Ha & [->| ->]).
        -- apply (marker_parts before ds after (js "^" ++ ds)); auto.
        -- replace (94%N :: ds ++ 94%N :: after)
             with ((js "^" ++ ds ++ js "^") ++ after)
             by (change (js "^") with [94%N]; by rewrite <- !app_assoc).
           apply (marker_parts before ds); auto 6.
      * apply numberCaret_inv in H as (ds & after & Hd & Ha & [->| ->]).
        -- apply (marker_parts before ds after ds); auto.
        -- replace (ds ++ 94%N :: after) with ((ds ++ js "^") ++ after)
             by (change (js "^") with [94%N]; by rewrite <- !app_assoc).
           apply (marker_parts before ds); auto 6.
  - intros (before & ds & after & core & -> & Hb & Ha & Hd & Hcore).
    destruct (decimalDigits_head ds Hd) as (c & ds' & Eds & Hc).
    pose proof (digit_not_space c Hc) as Hcs.
    change (js "[") with [91%N] in Hcore. change (js "]") with [93%N] in Hcore.
    change (js "^") with [94%N] in Hcore.
    destruct Hcore as [-> | [-> | [-> | [-> | ->]]]].
    + rewrite inlineMarker_app by (done || (rewrite Eds; cbn [app run]; by rewrite Hcs)).
      unfold careted. rewrite numberCaret_plain by done.
      by rewrite !orb_true_r.
    + rewrite inlineMarker_app by done.
      unfold bracketed. cbn [app charThen]. rewrite N.eqb_refl.
      rewrite <- app_assoc. rewrite digitsThen_app by done.
      cbn [app charThen]. rewrite N.eqb_refl. unfold spaceToEnd. by rewrite Ha.
    + rewrite inlineMarker_app by done.
      unfold careted. cbn [app charThen]. rewrite N.eqb_refl.
      rewrite numberCaret_plain by done. apply orb_true_r.
    + rewrite inlineMarker_app by (done || (rewrite Eds; cbn [app run]; by rewrite Hcs)).
      unfold careted. rewrite <- app_assoc. cbn [app].
      rewrite numberCaret_caret by done. by rewrite !orb_true_r.
    + rewrite inlineMarker_app by done.
      unfold careted. cbn [app charThen]. rewrite N.eqb_refl.
      rewrite <- app_assoc. cbn [app].
      rewrite numberCaret_caret by done. apply orb_true_r.
Qed.

Lemma test_marker text :
  test inlineCitationPattern text = true ↔ shortNumericMarker text.
Proof. rewrite test_inlineCitationPattern. apply inlineMarker_marker. Qed.

End SpecFacts.

(** ** The [a] renderer *)

Module LinkFacts.
Import JSString Builtins Regex RegexFacts CitationTsx Markdown Patterns
  PatternFacts Spec SpecFacts.


(** The renderer past its first two rules. *)
Lemma a_known_or_plain flag citations href children :
  targetDigits (default [] href) = None →
  linkDigits (default [] href) = None →
  a flag citations href children
  = if 0 <? length citations then
      match citationMap citations !! default [] href with
      | Some citationIndex =>
          CitationLinkElement (default [] href) citations
            (if negb (test inlineCitationPattern (childrenText children))
             then Some (js "ref-" ++ toString (citationIndex + 1))
             else None)
            children
      | None => CitationLinkElement (default [] href) citations None children
      end
    else LinkElement href flag children.
Proof.
  intros Ht Hl. unfold a.
  by rewrite strMatch_targetPattern, Ht, strMatch_linkPattern, Hl.
Qed.

(** C5, as the code has it: with an empty citation list, every href
    that is neither a reference target ([#citation-target-] and digits)
    nor an inline numeric reference ([#], [#ref] or [#ref-] and digits)
    is rendered as a plain external link. *)
Theorem plain_link_without_citations
    (flag : bool) (href : option jsstring) (children : nodes) :
  (∀ ds, ¬ referenceTarget (default [] href) ds) →
  (∀ ds, ¬ inlineNumericReferenceGrouped (default [] href) ds) →
  a flag [] href children = LinkElement href flag children.
Proof.
  intros Ht%not_target Hl%not_grouped. by rewrite a_known_or_plain.
Qed.

Lemma plain_link_without_citations_witness :
  a true [] (Some (js "https://example.com/a")) (One (NText (js "site")))
  = LinkElement (Some (js "https://example.com/a")) true (One (NText (js "site"))).
Proof.
  apply plain_link_without_citations; [apply not_target | apply not_grouped];
    vm_compute; reflexivity.
Defined.

(** C5 as stated fails: with an empty citation list the hrefs of the
    first two rules are still not plain external links. *)
Lemma plain_link_without_citations_counterexample :
  ¬ (∀ flag href children, ∃ h f c, a flag [] href children = LinkElement h f c).
Proof.
  intros H.
  destruct (H true (Some (js "#citation-target-3")) (One (NText (js "[3]"))))
    as (h & f & c & E).
  vm_compute in E. discriminate.
Qed.

(** C6: an href made of [#citation-target-] and one or more digits is
    rendered as the bold label in brackets, a span with id [ref-] and the
    digits that has no click handler, whatever the citations are: the
    rule comes before every other one. *)
Theorem reference_target_first
    (flag : bool) (citations : list Citation) (href ds : jsstring)
    (children : nodes) (document : list jsstring) :
  referenceTarget href ds →
  a flag citations (Some href) children
  = TargetSpan (js "ref-" ++ ds) (js "font-bold text-primary scroll-mt-20")
      (js "[" ++ ds ++ js "]") ∧
  onClick (a flag citations (Some href) children) document = None.
Proof.
  intros Hd.
  assert (a flag citations (Some href) children
          = TargetSpan (js "ref-" ++ ds)
              (js "font-bold text-primary scroll-mt-20")
              (js "[" ++ ds ++ js "]")) as E.
  { unfold a. rewrite strMatch_targetPattern.
    replace (targetDigits (default [] (Some href))) with (Some (Some ds)); [done|].
    symmetry. apply targetDigits_Some. eauto. }
  by rewrite E.
Qed.

Lemma reference_target_first_witness :
  a false [] (Some (js "#citation-target-3")) (One (NText (js "[3]")))
  = TargetSpan (js "ref-3") (js "font-bold text-primary scroll-mt-20") (js "[3]").
Proof.
  apply (reference_target_first false [] (js "#citation-target-3") (js "3")
           (One (NText (js "[3]"))) []).
  split; [reflexivity|]. split; [discriminate|reflexivity].
Defined.

(** C8, as the code has it: for an href made of [#], [#ref] or [#ref-]
    and one or more digits, the anchor's click handler prevents the
    default navigation and scrolls smoothly to the element with id [ref-]
    and the digits; when the document has no such element the handler
    does nothing else. *)
Theorem inline_reference_click
    (flag : bool) (citations : list Citation) (href ds : jsstring)
    (children : nodes) (document : list jsstring) :
  inlineNumericReferenceGrouped href ds →
  ∃ className effects,
    a flag citations (Some href) children
    = MarkerAnchor href className ds children ∧
    onClick (a flag citations (Some href) children) document = Some effects ∧
    defaultPrevented effects = true ∧
    (js "ref-" ++ ds ∈ document →
     effects = [PreventDefault;
                ScrollIntoView (js "ref-" ++ ds) (js "smooth") (js "start")]) ∧
    (js "ref-" ++ ds ∉ document → effects = [PreventDefault]).
Proof.
  intros Hd.
  assert (a flag citations (Some href) children
          = MarkerAnchor href
              (js "text-primary hover:underline cursor-pointer marker-link")
              ds children) as E.
  { unfold a. rewrite strMatch_targetPattern, strMatch_linkPattern.
    cbn [default from_option id].
    rewrite (grouped_not_target _ _ Hd).
    replace (linkDigits href) with (Some (Some ds)); [done|].
    symmetry. apply linkDigits_Some. eauto. }
  rewrite E. eexists _, _. split; [reflexivity|].
  split; [reflexivity|]. split; [reflexivity|].
  unfold markerOnClick, getElementById.
  split; intros Hin; by rewrite ?(bool_decide_eq_true_2 _ Hin),
    ?(bool_decide_eq_false_2 _ Hin).
Qed.

Lemma inline_reference_click_witness :
  ∃ className,
    a false [] (Some (js "#ref-12")) (One (NText (js "[12]")))
    = MarkerAnchor (js "#ref-12") className (js "12") (One (NText (js "[12]"))) ∧
    onClick (a false [] (Some (js "#ref-12")) (One (NText (js "[12]"))))
      [js "ref-1"; js "ref-2"]
    = Some [PreventDefault].
Proof.
  destruct (inline_reference_click false [] (js "#ref-12") (js "12")
              (One (NText (js "[12]"))) [js "ref-1"; js "ref-2"])
    as (className & effects & E & Hclick & _ & _ & Hmissing).
  - exists (js "#ref-"). split; [reflexivity|].
    split; [auto|]. split; [discriminate|reflexivity].
  - exists className. split; [exact E|].
    rewrite Hclick, Hmissing; [reflexivity|].
    vm_compute. intros Hin. repeat (apply elem_of_cons in Hin as [?|Hin]; [discriminate|]).
    by apply elem_of_nil in Hin.
Defined.

(** C8 as stated fails: with the hyphen optional on its own, [#-5] has
    the form, and it is rendered as a plain link without a handler. *)
Lemma inline_reference_click_counterexample :
  inlineNumericReference (js "#-5") (js "5") ∧
  a true [] (Some (js "#-5")) (One (NText (js "5")))
  = LinkElement (Some (js "#-5")) true (One (NText (js "5"))) ∧
  onClick (a true [] (Some (js "#-5")) (One (NText (js "5")))) [js "ref-5"] = None.
Proof.
  split; [|split; vm_compute; reflexivity].
  exists [], (js "-"). split; [reflexivity|].
  split; [auto|]. split; [auto|]. split; [discriminate|reflexivity].
Qed.

End LinkFacts.

(** ** The citation index *)

Module IndexFacts.
Import JSString Builtins CitationTsx Markdown Spec.

Lemma addCitation_forms map c index :
  addCitation map c index = foldl (λ m key, <[key := index]> m) map (forms c).
Proof.
  unfold addCitation, forms, strictEq.
  destruct (url c) as [|u0 u]; [done|].
  destruct (decodeURIComponent (u0 :: u)) as [decoded|];
    destruct (encodeURI (u0 :: u)) as [encoded|];
    repeat case_bool_decide; done.
Qed.

Lemma foldl_insert_lookup (map : gmap jsstring nat) keys index key :
  foldl (λ m k, <[k := index]> m) map keys !! key
  = if bool_decide (key ∈ keys) then Some index else map !! key.
Proof.
  revert map. induction keys as [|k keys IH]; intros map; cbn [foldl].
  { rewrite bool_decide_eq_false_2; [done|]. apply not_elem_of_nil. }
  rewrite IH. destruct (decide (key ∈ keys)) as [Hin|Hout].
  - rewrite !bool_decide_eq_true_2; [done| |done]. by right.
  - rewrite (bool_decide_eq_false_2 _ Hout).
    destruct (decide (key = k)) as [->|Hne].
    + rewrite bool_decide_eq_true_2 by left. apply lookup_insert_eq.
    + rewrite bool_decide_eq_false_2 by (by intros [?|?]%elem_of_cons).
      by apply lookup_insert_ne.
Qed.

Lemma addCitation_lookup map c index key :
  addCitation map c index !! key
  = if bool_decide (key ∈ forms c) then Some index else map !! key.
Proof. rewrite addCitation_forms. apply foldl_insert_lookup. Qed.

Lemma forEach_lookup map citations index key i :
  latest (λ c, key ∈ forms c) citations i →
  forEach map citations index !! key = Some (index + i).
Proof.
  revert map index i.
  induction citations as [|c citations IH]; intros map index i [(x & Hx & Hkey) Hlast].
  { done. }
  cbn [forEach].
  destruct i as [|i].
  - injection Hx as ->.
    assert (∀ map', map' !! key = Some index →
                    forEach map' citations (S index) !! key = Some index) as Hkeep.
    { clear IH. intros map' Hm.
      assert (∀ j y, citations !! j = Some y → key ∉ forms y) as Hnone
        by (intros j y Hj; apply (Hlast (S j) y); [lia|done]).
      clear Hlast. generalize (S index) as n. revert map' Hm.
      induction citations as [|d citations IH']; intros map' Hm n; [done|].
      cbn [forEach]. apply IH'.
      - intros j y Hj. apply (Hnone (S j) y Hj).
      - rewrite addCitation_lookup, bool_decide_eq_false_2; [done|].
        apply (Hnone 0 d eq_refl). }
    rewrite Nat.add_0_r. apply Hkeep.
    by rewrite addCitation_lookup, bool_decide_eq_true_2.
  - replace (index + S i) with (S index + i) by lia. apply IH.
    split; [by exists x|].
    intros j y Hj Hy. apply (Hlast (S j) y); [lia|done].
Qed.

(** A key is under the latest citation one of whose forms it is. *)
Lemma citationMap_latest citations key i :
  latest (λ c, key ∈ forms c) citations i → citationMap citations !! key = Some i.
Proof. intros H. unfold citationMap. by rewrite (forEach_lookup _ _ 0 key i H). Qed.

(** C1 at the citations of the specification: the decoded form of the
    first url is the second url, and the encoded form of the second url
    is the first url; both keys are under index 1, the later citation,
    although [CitationLink] finds the first url at index 0.  In general a
    key is under the latest citation that has it among its forms, so the
    index is not first-writer-wins. *)
Theorem citationMap_last_writer_wins :
  let citations := [bare (js "http://a.com/x%20y"); bare (js "http://a.com/x y")] in
  citationMap citations !! js "http://a.com/x y" = Some 1 ∧
  citationMap citations !! js "http://a.com/x%20y" = Some 1 ∧
  (CitationLink_lookup (js "http://a.com/x%20y") citations).2 = Some 0 ∧
  (∀ citations key i,
     latest (λ c, key ∈ forms c) citations i →
     citationMap citations !! key = Some i) ∧
  ¬ firstWriterWins citationMap.
Proof.
  intros citations.
  assert (citationMap citations !! js "http://a.com/x y" = Some 1) as H1
    by (vm_compute; reflexivity).
  split; [done|]. split; [vm_compute; reflexivity|].
  split; [vm_compute; reflexivity|]. split; [apply citationMap_latest|].
  intros Hfirst.
  specialize (Hfirst citations (js "http://a.com/x y") 0).
  rewrite H1 in Hfirst. enough (Some 1 = Some 0) by done. apply Hfirst.
  split.
  - exists (bare (js "http://a.com/x%20y")). split; [done|].
    vm_compute. apply list_elem_of_In. simpl. auto.
  - intros j y Hj. lia.
Qed.

Lemma citationMap_last_writer_wins_witness :
  citationMap [bare (js "http://a.com/x y"); bare (js "http://a.com/x y")]
    !! js "http://a.com/x%20y" = Some 1.
Proof.
  destruct citationMap_last_writer_wins as (_ & _ & _ & Hlatest & _).
  apply Hlatest. split.
  - exists (bare (js "http://a.com/x y")). split; [reflexivity|].
    vm_compute. apply list_elem_of_In. simpl. auto.
  - intros j y Hj Hy. apply lookup_lt_Some in Hy. simpl in Hy. lia.
Defined.

End IndexFacts.

(** ** The inline-versus-title heuristic *)

Module HeuristicFacts.
Import JSString Builtins Regex RegexFacts CitationTsx Markdown Patterns
  PatternFacts Spec SpecFacts LinkFacts IndexFacts.

Local Set Warnings "-clear-no-such-hyp".







End HeuristicFacts.

(** ** [CitationLink] and [CitationCard] *)

Module CitationFacts.
Import JSString Builtins CitationTsx Spec.

Lemma findIndex_Some {A} (p : A → bool) l i :
  findIndex p l = Some i ↔ earliest (λ x, p x = true) l i.
Proof.
  revert i. induction l as [|x l IH]; intros i; cbn [findIndex].
  { split; [done|]. by intros [(y & Hy & _) _]. }
  destruct (p x) eqn:Hx.
  - split.
    + intros [= <-]. split; [by exists x|]. intros j y Hj. lia.
    + intros [(y & Hy & Hpy) Hmin]. destruct i as [|i]; [done|].
      destruct (Hmin 0 x); [lia|done|done].
  - destruct (findIndex p l) as [j|]; cbn [fmap option_fmap option_map].
    + split.
      * intros [= <-]. destruct (proj1 (IH j) eq_refl) as [(y & Hy & Hpy) Hmin].
        split; [by exists y|].
        intros [|k] z Hk Hz; [injection Hz as <-; congruence|].
        apply (Hmin k z); [lia|done].
      * intros [(y & Hy & Hpy) Hmin]. destruct i as [|i].
        { injection Hy as <-. congruence. }
        assert (Some j = Some i) as [= ->]; [|done].
        apply IH. split; [by exists y|].
        intros k z Hk Hz. apply (Hmin (S k) z); [lia|done].
    + split; [done|].
      intros [(y & Hy & Hpy) Hmin]. destruct i as [|i].
      { injection Hy as <-. congruence. }
      assert (None = Some i) as [=].
      apply IH. split; [by exists y|].
      intros k z Hk Hz. apply (Hmin (S k) z); [lia|done].
Qed.

Lemma findIndex_None {A} (p : A → bool) l :
  findIndex p l = None ↔ ∀ x, x ∈ l → p x = false.
Proof.
  induction l as [|x l IH]; cbn [findIndex].
  { split; [|done]. by intros _ x ?%elem_of_nil. }
  destruct (p x) eqn:Hx.
  - split; [done|]. intros H. rewrite H in Hx by left. done.
  - destruct (findIndex p l) as [j|]; cbn [fmap option_fmap option_map].
    + split; [done|]. intros H.
      assert (Some j = None) as [=]. apply IH. intros y Hy. apply H. by right.
    + split; [|done]. intros _ y [->|Hy]%elem_of_cons; [done|].
      by apply IH.
Qed.

Lemma findIndex_lookup {A} (p : A → bool) l i :
  findIndex p l = Some i → is_Some (l !! i).
Proof. intros [(x & Hx & _) _]%findIndex_Some. by exists x. Qed.

Lemma strictEq_true a b : strictEq a b = true ↔ a = b.
Proof. unfold strictEq. apply bool_decide_eq_true. Qed.

Lemma earliest_ext {A} (P Q : A → Prop) l i :
  (∀ x, P x ↔ Q x) → earliest P l i → earliest Q l i.
Proof.
  intros E [(x & Hx & HP) Hmin]. split.
  - exists x. split; [done|]. by apply E.
  - intros j y Hj Hy HQ. apply (Hmin j y Hj Hy). by apply E.
Qed.

Lemma CitationLink_lookup_passes href citations :
  href ≠ [] →
  let index :=
    match findIndex (λ c, strictEq (url c) href) citations with
    | Some i => Some i
    | None =>
        findIndex (λ c, strictEq (normalizeUrl (url c)) (normalizeUrl href))
          citations
    end in
  CitationLink_lookup href citations = (index ≫= (citations !!.), index).
Proof.
  intros Hne. destruct href as [|h0 href]; [done|]. cbn [CitationLink_lookup].
  by destruct (findIndex _ citations); [|destruct (findIndex _ citations)].
Qed.

(** C4 at the code: the [try] block always completes normally, so the
    [catch] branch with the ten first characters never runs; a time stamp
    the host cannot read is shown as the text of an invalid date. *)
Theorem formattedDate_unreadable
    (parse : jsstring → option Z) (format : Z → jsstring)
    (accessed_at : jsstring) :
  (∃ text,
     bind (newDate parse accessed_at) (toLocaleDateString format) = Normal text) ∧
  (accessed_at ≠ [] → parse accessed_at = None →
   formattedDate parse format (Some accessed_at) = Some (js "Invalid Date")).
Proof.
  split.
  - unfold newDate, bind, toLocaleDateString.
    destruct (parse accessed_at); eauto.
  - intros Hne Hparse. destruct accessed_at as [|c s]; [done|].
    unfold formattedDate, newDate, bind, toLocaleDateString.
    by rewrite Hparse.
Qed.

Lemma formattedDate_unreadable_witness :
  let parse := λ s, if strictEq s (js "1970-01-01T00:00:00.000Z")
                    then Some 0%Z else None in
  let format := λ _ : Z, js "Jan 1, 1970" in
  formattedDate parse format (Some (js "yesterday at noon"))
  = Some (js "Invalid Date") ∧
  slice (js "yesterday at noon") 0 10 = js "yesterday ".
Proof.
  intros parse format. split; [|reflexivity].
  apply formattedDate_unreadable; [discriminate|reflexivity].
Defined.

End CitationFacts.

(** ** Markdown normalization *)

Module DropMarkdownQuoteFacts.
Import JSString DropMarkdownQuote.

Lemma startsWith_length s p : startsWith s p = true → length p ≤ length s.
Proof.
  revert s. induction p as [|c p IH]; intros [|d s]; simpl; intros H;
    try lia; try discriminate.
  apply andb_true_iff in H as [_ H]. apply IH in H. lia.
Qed.

Lemma search_bound s p i : search s p = Some i → i + length p ≤ length s.
Proof.
  revert i. induction s as [|d s IH]; intros i; cbn [search].
  - destruct (startsWith [] p) eqn:E; [|done].
    intros [= <-]. apply startsWith_length in E. simpl in *. lia.
  - destruct (startsWith (d :: s) p) eqn:E.
    + intros [= <-]. apply startsWith_length in E. simpl in *. lia.
    + destruct (search s p) as [j|] eqn:Ej; simpl; [|done].
      intros [= <-]. specialize (IH j eq_refl). lia.
Qed.

Lemma indexOf_bound s p from i :
  0 < length p → indexOf s p from = Some i →
  from ≤ i ∧ i + length p ≤ length s.
Proof.
  unfold indexOf. intros Hp.
  destruct (search (drop from s) p) as [j|] eqn:Ej; simpl; [|done].
  intros [= <-]. apply search_bound in Ej. rewrite length_drop in Ej. lia.
Qed.

Lemma patternsToRemove_proper : Forall proper patternsToRemove.
Proof. repeat constructor; simpl; lia. Qed.

Lemma removePair_length f r i e :
  i + prefixLen f ≤ e → e + length (suffix f) ≤ length r →
  length (removePair f r i e) + prefixLen f + length (suffix f) = length r.
Proof.
  intros. unfold removePair, slice, sliceFrom.
  rewrite !length_app, !length_take, !length_drop. lia.
Qed.

Lemma removePair_cursor f r i e :
  i + prefixLen f ≤ e → e + length (suffix f) ≤ length r →
  length (slice r 0 i) + length (slice r (i + prefixLen f) e) + prefixLen f = e.
Proof.
  intros. unfold slice. rewrite !length_take, !length_drop. lia.
Qed.

Lemma progress_trans r ch out out' :
  progress r ch out → progress out.1 out.2 out' → progress r ch out'.
Proof.
  unfold progress. intros [->|[? ?]] [->|[? ?]]; simpl in *; auto.
  right. split; [done|lia].
Qed.

Lemma scan_total fuel f r ch i :
  proper f → length r - i < fuel →
  ∃ out, scan fuel f r ch i = Some out ∧ progress r ch out.
Proof.
  intros (Hlen & Hpre & Hsuf). revert r ch i.
  induction fuel as [|fuel IH]; intros r ch i Hfuel; [lia|].
  cbn [scan].
  destruct (indexOf r (prefix f) i) as [i1|] eqn:E1.
  2:{ eexists; split; [done|by left]. }
  apply indexOf_bound in E1 as [? ?]; [|done].
  destruct (indexOf r (suffix f) (i1 + prefixLen f)) as [e|] eqn:E2.
  - apply indexOf_bound in E2 as [? ?]; [|done].
    pose proof (removePair_length f r i1 e) as Hl.
    pose proof (removePair_cursor f r i1 e) as Hc.
    destruct (IH (removePair f r i1 e) true
                (length (slice r 0 i1) + length (slice r (i1 + prefixLen f) e)))
      as (out & Hout & Hprog); [lia|].
    exists out. split; [done|].
    right. destruct Hprog as [->|[? ?]]; simpl; split; auto; lia.
  - destruct (IH r ch (i1 + prefixLen f)) as (out & Hout & Hprog); [lia|].
    by exists out.
Qed.

Lemma scan_mono fuel fuel' f r ch i out :
  scan fuel f r ch i = Some out → fuel ≤ fuel' → scan fuel' f r ch i = Some out.
Proof.
  revert fuel' r ch i. induction fuel as [|fuel IH]; intros [|fuel'] r ch i;
    cbn [scan]; try done; try lia.
  intros H Hle.
  destruct (indexOf r (prefix f) i) as [i1|]; [|done].
  destruct (indexOf r (suffix f) (i1 + prefixLen f)) as [e|];
    (apply IH; [done|lia]).
Qed.

Lemma sweep_total fuel ps r ch :
  Forall proper ps → length r < fuel →
  ∃ out, sweep fuel ps r ch = Some out ∧ progress r ch out.
Proof.
  intros Hps. revert r ch. induction Hps as [|f ps Hf _ IH]; intros r ch Hfuel.
  - eexists; split; [done|by left].
  - cbn [sweep].
    destruct (scan_total fuel f r ch 0 Hf) as ([r1 ch1] & -> & H1); [lia|].
    assert (length r1 ≤ length r)
      by (destruct H1 as [[= -> ->]|[_ ?]]; simpl in *; lia).
    destruct (IH r1 ch1) as (out & Hout & H2); [lia|].
    exists out. split; [done|]. by eapply progress_trans.
Qed.

Lemma sweep_mono fuel fuel' ps r ch out :
  sweep fuel ps r ch = Some out → fuel ≤ fuel' → sweep fuel' ps r ch = Some out.
Proof.
  intros H Hle. revert r ch H. induction ps as [|f ps IH]; intros r ch; [done|].
  cbn [sweep]. destruct (scan fuel f r ch 0) as [[r1 ch1]|] eqn:E; [|done].
  rewrite (scan_mono _ fuel' _ _ _ _ _ E Hle). apply IH.
Qed.

Lemma unwrap_total fuel r :
  length r < fuel → ∃ r', unwrap fuel r = Some r' ∧ length r' ≤ length r.
Proof.
  revert r. induction fuel as [|fuel IH]; intros r Hfuel; [lia|].
  cbn [unwrap].
  destruct (sweep_total (S fuel) patternsToRemove r false
              patternsToRemove_proper Hfuel) as ([r1 ch1] & -> & H1).
  destruct H1 as [[= -> ->]|[Hch ?]]; simpl in *.
  - by exists r.
  - subst ch1. destruct (IH r1) as (r' & -> & ?); [lia|].
    exists r'. split; [done|lia].
Qed.

Lemma unwrap_mono fuel fuel' r r' :
  unwrap fuel r = Some r' → fuel ≤ fuel' → unwrap fuel' r = Some r'.
Proof.
  revert fuel' r. induction fuel as [|fuel IH]; intros [|fuel'] r;
    cbn [unwrap]; try done; try lia.
  intros H Hle.
  destruct (sweep (S fuel) patternsToRemove r false) as [[r1 ch1]|] eqn:E;
    [|done].
  rewrite (sweep_mono _ (S fuel') _ _ _ _ E) by lia.
  destruct ch1; [|done]. apply IH; [done|lia].
Qed.

(** The text the outer loop returns is one on which a sweep changes
    nothing. *)
Lemma unwrap_settled fuel r r' :
  unwrap fuel r = Some r' →
  ∃ fuel', sweep fuel' patternsToRemove r' false = Some (r', false).
Proof.
  revert r. induction fuel as [|fuel IH]; intros r; cbn [unwrap];
    [done|].
  destruct (sweep (S fuel) patternsToRemove r false) as [[r1 ch1]|] eqn:E;
    [|done].
  destruct ch1; [apply IH|].
  intros [= ->]. exists (S fuel).
  destruct (sweep_total (S (fuel + length r)) patternsToRemove r false
              patternsToRemove_proper) as (out & Hout & Hprog); [lia|].
  rewrite (sweep_mono _ (S (fuel + length r)) _ _ _ _ E) in Hout by lia.
  injection Hout as <-. destruct Hprog as [[= ->]|[[=] _]]. done.
Qed.

Lemma unwrap_fixed fuel fuel' r r' :
  unwrap fuel r = Some r' → length r' < fuel' → unwrap fuel' r' = Some r'.
Proof.
  intros H Hfuel. apply unwrap_settled in H as (k & Hk).
  destruct fuel' as [|fuel']; [lia|]. cbn [unwrap].
  destruct (sweep_total (S fuel') patternsToRemove r' false
              patternsToRemove_proper Hfuel) as (out & Hout & _).
  rewrite Hout.
  apply (sweep_mono _ (S fuel' + k)) in Hout; [|lia].
  apply (sweep_mono _ (S fuel' + k)) in Hk; [|lia].
  rewrite Hk in Hout. by injection Hout as <-.
Qed.

Lemma stripOpen_length ps r : length (stripOpen ps r) ≤ length r.
Proof.
  induction ps as [|f ps IH]; simpl; [lia|].
  destruct (_ && _); [|done]. unfold sliceFrom. rewrite length_drop. lia.
Qed.

Lemma stripOpen_balanced ps r :
  (∀ f, f ∈ ps →
     startsWith r (prefix f) && negb (endsWith r (suffix f)) = false) →
  stripOpen ps r = r.
Proof.
  induction ps as [|f ps IH]; intros H; simpl; [done|].
  rewrite H by left. apply IH. intros g Hg. apply H. by right.
Qed.

Lemma dropMarkdownQuote_fuel_enough markdown fuel :
  enough markdown ≤ fuel →
  dropMarkdownQuote_fuel fuel markdown = Some (dropMarkdownQuote markdown).
Proof.
  intros Hle. destruct markdown as [[|c s]|]; [done| |done].
  unfold dropMarkdownQuote.
  set (r0 := stripOpen patternsToRemove (c :: s)).
  change (dropMarkdownQuote_fuel ?n (Some (c :: s))) with (Some <$> unwrap n r0).
  destruct (unwrap_total (enough (Some (c :: s))) r0) as (r' & Hr & _).
  { pose proof (stripOpen_length patternsToRemove (c :: s)).
    unfold enough, r0. lia. }
  by rewrite Hr, (unwrap_mono _ fuel _ _ Hr Hle).
Qed.

(** The text from which a run of the function with [fuel] starts and
    ends, for an argument that is not empty. *)
Lemma dropMarkdownQuote_unwrap c s r :
  dropMarkdownQuote (Some (c :: s)) = Some r →
  unwrap (enough (Some (c :: s))) (stripOpen patternsToRemove (c :: s)) = Some r.
Proof.
  intros H.
  pose proof (dropMarkdownQuote_fuel_enough (Some (c :: s)) _ (le_n _)) as E.
  rewrite H in E.
  change (dropMarkdownQuote_fuel ?n (Some (c :: s)))
    with (Some <$> unwrap n (stripOpen patternsToRemove (c :: s))) in E.
  destruct (unwrap _ _); by inversion E.
Qed.

(** The input of the specification's fence stripping scenario. *)
Lemma hello_world :
  dropMarkdownQuote
    (Some (js "```markdown" ++ LF ++ js "# Hello" ++ LF ++ js "World"
             ++ LF ++ js "```"))
  = Some (js "# Hello" ++ LF ++ js "World").
Proof. vm_compute. reflexivity. Qed.

(** C9: [dropMarkdownQuote] terminates on every input.  Each removal of
    a fence pair in the sweep strictly shortens the working string, and
    for every argument there is one result that every run with at least
    [enough] iterations per loop returns; when it is a string, a further
    sweep over it changes nothing. *)
Theorem dropMarkdownQuote_terminates (markdown : option jsstring) :
  (∀ f result startIndex i e,
     f ∈ patternsToRemove →
     indexOf result (prefix f) startIndex = Some i →
     indexOf result (suffix f) (i + prefixLen f) = Some e →
     length (removePair f result i e) < length result) ∧
  ∃ result,
    (∀ fuel, enough markdown ≤ fuel →
       dropMarkdownQuote_fuel fuel markdown = Some result) ∧
    (∀ r, result = Some r →
       sweep (S (length r)) patternsToRemove r false = Some (r, false)).
Proof.
  split.
  - intros f result startIndex i e Hf Hi He.
    pose proof patternsToRemove_proper as Hp.
    rewrite Forall_forall in Hp. destruct (Hp f Hf) as (? & ? & ?).
    apply indexOf_bound in Hi as [? ?]; [|done].
    apply indexOf_bound in He as [? ?]; [|done].
    pose proof (removePair_length f result i e). lia.
  - exists (dropMarkdownQuote markdown). split.
    + intros fuel. apply dropMarkdownQuote_fuel_enough.
    + intros r Hr. destruct markdown as [[|c s]|]; [done| |done].
      apply dropMarkdownQuote_unwrap, unwrap_settled in Hr as (k & Hk).
      destruct (sweep_total (S (length r)) patternsToRemove r false
                  patternsToRemove_proper) as (out & Hout & _); [lia|].
      rewrite Hout.
      apply (sweep_mono _ (S (length r) + k)) in Hout; [|lia].
      apply (sweep_mono _ (S (length r) + k)) in Hk; [|lia].
      congruence.
Qed.

Lemma dropMarkdownQuote_terminates_witness :
  let markdown := js "```markdown" ++ LF ++ js "# Hello" ++ LF ++ js "```" in
  length (removePair (Fence (js "```markdown" ++ LF) (LF ++ js "```") 12)
            markdown 0 19) < length markdown ∧
  ∃ result, dropMarkdownQuote_fuel 30 (Some markdown) = Some result.
Proof.
  intros markdown.
  destruct (dropMarkdownQuote_terminates (Some markdown))
    as [Hshort (result & Hrun & _)].
  split.
  - apply (Hshort _ markdown 0 0 19); [left | reflexivity | reflexivity].
  - exists result. apply Hrun. vm_compute. lia.
Defined.

(** C2, as the code has it: an absent or [null] argument yields [null],
    and so does the empty string, which the guard does not tell from
    [null]; the caller's [?? ""] makes the empty string of either; every
    other string yields a string. *)
Theorem dropMarkdownQuote_null_and_empty :
  dropMarkdownQuote None = None ∧
  dropMarkdownQuote (Some []) = None ∧
  dropMarkdownQuote_or_empty (Some []) = [] ∧
  ∀ markdown, markdown ≠ [] → is_Some (dropMarkdownQuote (Some markdown)).
Proof.
  repeat split; try reflexivity.
  intros [|c s] Hne; [done|].
  pose proof (dropMarkdownQuote_fuel_enough (Some (c :: s)) _ (le_n _)) as E.
  change (dropMarkdownQuote_fuel ?n (Some (c :: s)))
    with (Some <$> unwrap n (stripOpen patternsToRemove (c :: s))) in E.
  destruct (unwrap _ _); [|done]. injection E as <-. by eexists.
Qed.

Lemma dropMarkdownQuote_null_and_empty_witness :
  is_Some (dropMarkdownQuote (Some (js "```" ++ LF ++ js "foo"))).
Proof.
  apply dropMarkdownQuote_null_and_empty. vm_compute. discriminate.
Defined.

(** C2 as stated fails: the empty string does not pass through. *)
Lemma dropMarkdownQuote_empty_counterexample :
  ¬ (dropMarkdownQuote None = None ∧ dropMarkdownQuote (Some []) = Some []).
Proof. intros [_ H]. vm_compute in H. discriminate. Qed.

(** C3, as the code has it: applying the function to its own output
    returns that output whenever the output is not empty and no pattern
    opens it without closing it (the first loop then finds nothing to
    cut). *)
Theorem dropMarkdownQuote_idempotent_when_balanced (markdown r : jsstring) :
  dropMarkdownQuote (Some markdown) = Some r →
  r ≠ [] → balanced r →
  dropMarkdownQuote (Some r) = Some r.
Proof.
  intros Hrun Hne Hbal.
  destruct markdown as [|c s]; [done|]. destruct r as [|d r]; [done|].
  apply dropMarkdownQuote_unwrap in Hrun.
  pose proof (dropMarkdownQuote_fuel_enough (Some (d :: r)) _ (le_n _)) as E.
  change (dropMarkdownQuote_fuel ?n (Some (d :: r)))
    with (Some <$> unwrap n (stripOpen patternsToRemove (d :: r))) in E.
  rewrite (stripOpen_balanced _ _ Hbal) in E.
  rewrite (unwrap_fixed _ (enough (Some (d :: r))) _ _ Hrun) in E
    by (unfold enough; lia).
  by injection E as <-.
Qed.

Lemma dropMarkdownQuote_idempotent_when_balanced_witness :
  dropMarkdownQuote (Some (js "# Hello" ++ LF ++ js "World"))
  = Some (js "# Hello" ++ LF ++ js "World").
Proof.
  apply (dropMarkdownQuote_idempotent_when_balanced
           (js "```markdown" ++ LF ++ js "# Hello" ++ LF ++ js "World"
              ++ LF ++ js "```")).
  - vm_compute. reflexivity.
  - vm_compute. discriminate.
  - intros f Hf. repeat (apply elem_of_cons in Hf as [->|Hf]);
      [vm_compute; reflexivity ..|]. by apply elem_of_nil in Hf.
Defined.

(** C3 as stated fails: the first run cuts one opening fence, the second
    run cuts the next. *)
Lemma dropMarkdownQuote_idempotent_counterexample :
  let s := js "```" ++ LF ++ js "```" ++ LF ++ js "foo" in
  dropMarkdownQuote (Some s) = Some (js "```" ++ LF ++ js "foo") ∧
  dropMarkdownQuote (dropMarkdownQuote (Some s)) = Some (js "foo") ∧
  dropMarkdownQuote (dropMarkdownQuote (Some s)) ≠ dropMarkdownQuote (Some s).
Proof. vm_compute. repeat split. discriminate. Qed.

End DropMarkdownQuoteFacts.

(** ** More on markdown normalization *)

Module DropMarkdownQuoteMore.
Import JSString DropMarkdownQuote DropMarkdownQuoteFacts RegexFacts Occurrence.

(** *** [search] and [indexOf] find the first occurrence *)

Lemma search_Some s p i :
  search s p = Some i →
  occursAt p s i ∧ ∀ j, j < i → ¬ occursAt p s j.
Proof.
  unfold occursAt. revert i. induction s as [|d s IH]; intros i; cbn [search].
  - destruct (startsWith [] p) eqn:E; [|done]. intros [= <-].
    split; [done|]. intros j Hj. lia.
  - destruct (startsWith (d :: s) p) eqn:E.
    + intros [= <-]. split; [done|]. intros j Hj. lia.
    + destruct (search s p) as [k|]; [|done]. intros [= <-].
      destruct (IH k eq_refl) as [Hk Hmin]. split; [done|].
      intros [|j] Hj; cbn [drop]; [by rewrite E|]. apply Hmin. lia.
Qed.

Lemma search_None s p i : search s p = None → ¬ occursAt p s i.
Proof.
  unfold occursAt. revert i. induction s as [|d s IH]; intros i; cbn [search].
  - destruct (startsWith [] p) eqn:E; [done|]. intros _.
    replace (drop i []) with (@nil N) by by destruct i. by rewrite E.
  - destruct (startsWith (d :: s) p) eqn:E; [done|].
    destruct (search s p) as [k|] eqn:Ek; [done|]. intros _.
    destruct i as [|i]; cbn [drop]; [by rewrite E|]. by apply IH.
Qed.

Lemma search_None_intro s p : (∀ i, ¬ occursAt p s i) → search s p = None.
Proof.
  intros H. destruct (search s p) as [i|] eqn:E; [|done].
  apply search_Some in E as [E _]. by destruct (H i).
Qed.

Lemma indexOf_Some s p from i :
  indexOf s p from = Some i →
  from ≤ i ∧ occursAt p s i ∧ ∀ j, from ≤ j < i → ¬ occursAt p s j.
Proof.
  unfold indexOf. destruct (search (drop from s) p) as [k|] eqn:E; [|done].
  intros [= <-]. apply search_Some in E as [Hk Hmin]. unfold occursAt in *.
  rewrite drop_drop in Hk. split; [lia|]. split; [done|].
  intros j [? ?]. specialize (Hmin (j - from)). rewrite drop_drop in Hmin.
  replace (from + (j - from)) with j in Hmin by lia. apply Hmin. lia.
Qed.

Lemma indexOf_None s p from j :
  indexOf s p from = None → from ≤ j → ¬ occursAt p s j.
Proof.
  unfold indexOf. destruct (search (drop from s) p) as [k|] eqn:E; [done|].
  intros _ Hj. pose proof (search_None _ _ (j - from) E) as H.
  unfold occursAt in *. rewrite drop_drop in H.
  by replace (from + (j - from)) with j in H by lia.
Qed.

Lemma indexOf_None_intro s p from :
  (∀ j, from ≤ j → ¬ occursAt p s j) → indexOf s p from = None.
Proof.
  intros H. unfold indexOf. rewrite search_None_intro; [done|].
  intros i. unfold occursAt. rewrite drop_drop. apply H. lia.
Qed.

(** *** What a run of a loop leaves behind *)

Lemma scan_progress fuel f r ch i out :
  proper f → scan fuel f r ch i = Some out → progress r ch out.
Proof.
  intros Hf H.
  destruct (scan_total (fuel + S (length r)) f r ch i Hf) as (out' & H' & Hp);
    [lia|].
  rewrite (scan_mono _ (fuel + S (length r)) _ _ _ _ _ H) in H' by lia.
  by injection H' as <-.
Qed.

Lemma sweep_progress fuel ps r ch out :
  Forall proper ps → sweep fuel ps r ch = Some out → progress r ch out.
Proof.
  intros Hps. revert r ch. induction Hps as [|f ps Hf _ IH]; intros r ch.
  - intros [= <-]. by left.
  - cbn [sweep]. destruct (scan fuel f r ch 0) as [[r1 ch1]|] eqn:E; [|done].
    intros H. apply (progress_trans _ _ (r1, ch1)); [|by apply IH].
    by eapply scan_progress.
Qed.

Lemma progress_flag r out : progress r true out → out.2 = true.
Proof. by intros [->|[? _]]. Qed.

(** A sweep that reports no change ran every inner loop without change. *)
Lemma sweep_unchanged fuel ps r f :
  Forall proper ps → sweep fuel ps r false = Some (r, false) → f ∈ ps →
  scan fuel f r false 0 = Some (r, false).
Proof.
  intros Hps. induction Hps as [|g ps Hg Hps IH]; intros H Hf.
  { by apply elem_of_nil in Hf. }
  cbn [sweep] in H.
  destruct (scan fuel g r false 0) as [[r1 ch1]|] eqn:E; [|done].
  pose proof (scan_progress _ _ _ _ _ _ Hg E) as [[= -> ->]|[Hch _]].
  - apply elem_of_cons in Hf as [->|Hf]; [done|]. by apply IH.
  - cbn in Hch. subst ch1.
    apply sweep_progress, progress_flag in H; [done|done].
Qed.

(** An inner loop that reports no change saw no opening fence with a
    closing fence after it. *)
Lemma scan_unchanged fuel f r i j :
  proper f → scan fuel f r false 0 = Some (r, false) →
  occursAt (prefix f) r i → i + prefixLen f ≤ j → ¬ occursAt (suffix f) r j.
Proof.
  intros Hf H Hi Hj. destruct fuel as [|fuel]; [done|]. cbn [scan] in H.
  destruct (indexOf r (prefix f) 0) as [p0|] eqn:E0.
  2:{ by destruct (indexOf_None _ _ _ i E0 (Nat.le_0_l _)). }
  apply indexOf_Some in E0 as (_ & _ & Hmin).
  assert (p0 ≤ i) by (destruct (decide (p0 ≤ i)); [done|];
                      destruct (Hmin i); [lia|done]).
  destruct (indexOf r (suffix f) (p0 + prefixLen f)) as [e|] eqn:E1.
  - apply scan_progress, progress_flag in H; [done|done].
  - apply (indexOf_None _ _ _ j E1). lia.
Qed.

(** X1: in what the function returns, no opening fence of a pattern has
    the closing fence anywhere after it: no pair is left to remove. *)
Theorem dropMarkdownQuote_no_pair_left (markdown r : jsstring) (f : fence)
    (i j : nat) :
  dropMarkdownQuote (Some markdown) = Some r →
  f ∈ patternsToRemove →
  occursAt (prefix f) r i → i + prefixLen f ≤ j → ¬ occursAt (suffix f) r j.
Proof.
  intros Hrun Hf. destruct markdown as [|c s]; [done|].
  apply dropMarkdownQuote_unwrap, unwrap_settled in Hrun as (k & Hk).
  pose proof patternsToRemove_proper as Hp.
  apply scan_unchanged with k.
  - rewrite Forall_forall in Hp. by apply Hp.
  - by apply (sweep_unchanged k patternsToRemove).
Qed.

Lemma dropMarkdownQuote_no_pair_left_witness :
  let r := js "```" ++ LF ++ js "foo" in
  dropMarkdownQuote (Some (js "```" ++ LF ++ js "```" ++ LF ++ js "foo")) = Some r ∧
  occursAt (js "```" ++ LF) r 0 ∧ ¬ occursAt (LF ++ js "```") r 4.
Proof.
  intros r. split; [vm_compute; reflexivity|]. split; [reflexivity|].
  apply (dropMarkdownQuote_no_pair_left
           (js "```" ++ LF ++ js "```" ++ LF ++ js "foo") r
           (Fence (js "```" ++ LF) (LF ++ js "```") 4) 0 4).
  - vm_compute. reflexivity.
  - right. right. left.
  - reflexivity.
  - vm_compute. lia.
Defined.

(** *** The function only deletes *)

Lemma removePair_sublist f r i e :
  i + prefixLen f ≤ e → removePair f r i e `sublist_of` r.
Proof.
  intros Hie. unfold removePair, slice, sliceFrom.
  rewrite Nat.sub_0_r. cbn [drop].
  rewrite <- (take_drop i r) at 4. apply sublist_app; [done|].
  replace (drop (i + prefixLen f) r) with (drop (prefixLen f) (drop i r))
    by (rewrite drop_drop; f_equal; lia).
  replace (drop (e + length (suffix f)) r)
    with (drop (e - i - prefixLen f + length (suffix f))
            (drop (prefixLen f) (drop i r)))
    by (rewrite !drop_drop; f_equal; lia).
  replace (e - (i + prefixLen f)) with (e - i - prefixLen f) by lia.
  etrans; [|apply sublist_drop].
  rewrite <- (take_drop (e - i - prefixLen f) (drop (prefixLen f) (drop i r))) at 3.
  apply sublist_app; [done|].
  rewrite <- drop_drop. apply sublist_drop.
Qed.

Lemma scan_sublist fuel f r ch i out :
  proper f → scan fuel f r ch i = Some out → out.1 `sublist_of` r.
Proof.
  intros (Hlen & Hpre & Hsuf). revert r ch i.
  induction fuel as [|fuel IH]; intros r ch i; [done|]. cbn [scan].
  destruct (indexOf r (prefix f) i) as [i1|] eqn:E1; [|by intros [= <-]].
  destruct (indexOf r (suffix f) (i1 + prefixLen f)) as [e|] eqn:E2.
  - apply indexOf_bound in E2 as [? ?]; [|done].
    intros Hout%IH. etrans; [done|]. by apply removePair_sublist.
  - apply IH.
Qed.

Lemma sweep_sublist fuel ps r ch out :
  Forall proper ps → sweep fuel ps r ch = Some out → out.1 `sublist_of` r.
Proof.
  intros Hps. revert r ch. induction Hps as [|f ps Hf _ IH]; intros r ch.
  - by intros [= <-].
  - cbn [sweep]. destruct (scan fuel f r ch 0) as [[r1 ch1]|] eqn:E; [|done].
    intros H%IH. etrans; [done|]. by apply (scan_sublist _ _ _ _ _ _ Hf E).
Qed.

Lemma unwrap_sublist fuel r r' : unwrap fuel r = Some r' → r' `sublist_of` r.
Proof.
  revert r. induction fuel as [|fuel IH]; intros r; [done|]. cbn [unwrap].
  destruct (sweep (S fuel) patternsToRemove r false) as [[r1 ch1]|] eqn:E;
    [|done].
  apply sweep_sublist in E; [|apply patternsToRemove_proper].
  destruct ch1.
  - intros H%IH. by etrans.
  - by intros [= <-].
Qed.

Lemma stripOpen_sublist ps r : stripOpen ps r `sublist_of` r.
Proof.
  induction ps as [|f ps IH]; cbn [stripOpen]; [done|].
  destruct (_ && _); [apply sublist_drop|done].
Qed.

(** X2: the function only deletes characters: what it returns is a
    subsequence of its argument, so it is never longer. *)
Theorem dropMarkdownQuote_only_deletes (markdown r : jsstring) :
  dropMarkdownQuote (Some markdown) = Some r →
  r `sublist_of` markdown ∧ length r ≤ length markdown.
Proof.
  intros Hrun.
  assert (r `sublist_of` markdown) as Hsub; [|split; [done|by apply sublist_length]].
  destruct markdown as [|c s]; [done|].
  apply dropMarkdownQuote_unwrap, unwrap_sublist in Hrun.
  etrans; [done|]. apply stripOpen_sublist.
Qed.

Lemma dropMarkdownQuote_only_deletes_witness :
  js "xa" ++ LF ++ js "b" `sublist_of`
    js "x```text" ++ LF ++ js "a" ++ LF ++ js "```" ++ LF ++ js "b".
Proof.
  apply (dropMarkdownQuote_only_deletes
           (js "x```text" ++ LF ++ js "a" ++ LF ++ js "```" ++ LF ++ js "b")).
  vm_compute. reflexivity.
Defined.

(** *** Texts without three backticks in a row *)

Lemma startsWith_lookup s p n x :
  startsWith s p = true → p !! n = Some x → s !! n = Some x.
Proof.
  intros H%startsWith_inv Hn. rewrite H. by apply lookup_app_l_Some.
Qed.

Lemma triple_lookup (s : jsstring) :
  s !! 0 = Some 96%N → s !! 1 = Some 96%N → s !! 2 = Some 96%N →
  startsWith s (js "```") = true.
Proof.
  destruct s as [|a [|b [|c s]]]; try done. by intros [= ->] [= ->] [= ->].
Qed.

Lemma occursAt_nil p i : p ≠ [] → ¬ occursAt p [] i.
Proof.
  unfold occursAt. replace (drop i []) with (@nil N) by by destruct i.
  by destruct p.
Qed.

Lemma tripleFree_no_occurrence c rest p k i :
  tripleFree c → hasTripleAt p k → k ≤ 1 → rest !! 0 ≠ Some 96%N →
  i < length c → ¬ occursAt p (c ++ rest) i.
Proof.
  intros Hc (H0 & H1 & H2) Hk Hrest Hi Hocc. unfold occursAt in Hocc.
  pose proof (startsWith_lookup _ _ _ _ Hocc H0) as L0.
  pose proof (startsWith_lookup _ _ _ _ Hocc H1) as L1.
  pose proof (startsWith_lookup _ _ _ _ Hocc H2) as L2.
  rewrite lookup_drop in L0, L1, L2.
  destruct (decide (i + k + 2 < length c)) as [Hin|Hout].
  - apply (Hc (i + k)). unfold occursAt. apply triple_lookup;
      rewrite lookup_drop.
    + rewrite lookup_app_l in L0 by lia. by rewrite <- L0; f_equal; lia.
    + rewrite lookup_app_l in L1 by lia. by rewrite <- L1; f_equal; lia.
    + rewrite lookup_app_l in L2 by lia. by rewrite <- L2; f_equal; lia.
  - apply Hrest.
    assert ((c ++ rest) !! length c = Some 96%N) as L.
    { destruct (decide (length c = i + k)) as [->|];
        [by rewrite <- L0; f_equal; lia|].
      destruct (decide (length c = i + k + 1)) as [->|];
        [by rewrite <- L1; f_equal; lia|].
      rewrite <- L2. f_equal. lia. }
    by rewrite lookup_app_r, Nat.sub_diag in L.
Qed.

Lemma tripleFree_no_prefix c p i :
  tripleFree c → hasTripleAt p 0 → ¬ occursAt p c i.
Proof.
  intros Hc Hp. destruct (decide (i < length c)) as [Hi|Hi].
  - rewrite <- (app_nil_r c).
    apply (tripleFree_no_occurrence c [] p 0); [done|done|lia|done|done].
  - unfold occursAt. rewrite drop_ge by lia. destruct Hp as [Hp _].
    by destruct p.
Qed.

Lemma prefix_hasTriple f : f ∈ patternsToRemove → hasTripleAt (prefix f) 0.
Proof.
  intros Hf. repeat (apply elem_of_cons in Hf as [->|Hf]); [done..|].
  by apply elem_of_nil in Hf.
Qed.

Lemma suffix_same f : f ∈ patternsToRemove → suffix f = LF ++ js "```".
Proof.
  intros Hf. repeat (apply elem_of_cons in Hf as [->|Hf]); [done..|].
  by apply elem_of_nil in Hf.
Qed.

Lemma prefixLen_length f : f ∈ patternsToRemove → prefixLen f = length (prefix f).
Proof.
  intros Hf. repeat (apply elem_of_cons in Hf as [->|Hf]); [done..|].
  by apply elem_of_nil in Hf.
Qed.

(** *** Running the loops where nothing or one pair is found *)

Lemma scan_skip fuel f r ch :
  (∀ i, ¬ occursAt (prefix f) r i) → scan (S fuel) f r ch 0 = Some (r, ch).
Proof. intros H. cbn [scan]. by rewrite indexOf_None_intro. Qed.

Lemma sweep_skip fuel ps r ch :
  (∀ f i, f ∈ ps → ¬ occursAt (prefix f) r i) →
  sweep (S fuel) ps r ch = Some (r, ch).
Proof.
  induction ps as [|f ps IH]; intros H; [done|]. cbn [sweep].
  rewrite scan_skip by (intros i; apply H; left).
  apply IH. intros g i Hg. apply H. by right.
Qed.

Lemma unwrap_skip fuel r :
  (∀ f i, f ∈ patternsToRemove → ¬ occursAt (prefix f) r i) →
  unwrap (S fuel) r = Some r.
Proof. intros H. cbn [unwrap]. by rewrite sweep_skip. Qed.

Lemma unwrap_tripleFree fuel r : tripleFree r → unwrap (S fuel) r = Some r.
Proof.
  intros H. apply unwrap_skip. intros f i Hf.
  by apply tripleFree_no_prefix, prefix_hasTriple.
Qed.

(** A run with some fuel decides what the function returns. *)
Lemma dropMarkdownQuote_run fuel markdown r :
  markdown ≠ [] →
  unwrap fuel (stripOpen patternsToRemove markdown) = Some r →
  dropMarkdownQuote (Some markdown) = Some r.
Proof.
  intros Hne H. destruct markdown as [|c s]; [done|].
  pose proof (dropMarkdownQuote_fuel_enough (Some (c :: s))
                (fuel + enough (Some (c :: s)))) as E.
  change (dropMarkdownQuote_fuel ?n (Some (c :: s)))
    with (Some <$> unwrap n (stripOpen patternsToRemove (c :: s))) in E.
  rewrite (unwrap_mono _ (fuel + enough (Some (c :: s))) _ _ H) in E by lia.
  symmetry. injection (E ltac:(lia)) as <-. done.
Qed.

Lemma stripOpen_skip f ps r :
  startsWith r (prefix f) = false → stripOpen (f :: ps) r = stripOpen ps r.
Proof. intros H. cbn [stripOpen]. by rewrite H. Qed.

Lemma stripOpen_tripleFree ps r :
  (∀ f, f ∈ ps → f ∈ patternsToRemove) → tripleFree r → stripOpen ps r = r.
Proof.
  intros Hps Hr. induction ps as [|f ps IH]; [done|].
  rewrite stripOpen_skip.
  - apply IH. intros g Hg. apply Hps. by right.
  - assert (¬ occursAt (prefix f) r 0) as H
      by (apply tripleFree_no_prefix, prefix_hasTriple; [done|apply Hps; left]).
    destruct (startsWith r (prefix f)) eqn:E; [|done]. destruct H. exact E.
Qed.

(** X3: a text that is not empty and has no three backticks in a row is
    returned as it is. *)
Theorem dropMarkdownQuote_plain (markdown : jsstring) :
  markdown ≠ [] → tripleFree markdown →
  dropMarkdownQuote (Some markdown) = Some markdown.
Proof.
  intros Hne Hfree. apply (dropMarkdownQuote_run 1); [done|].
  rewrite stripOpen_tripleFree by done. by apply unwrap_tripleFree.
Qed.

Lemma tripleFree_search s : search s (js "```") = None → tripleFree s.
Proof. intros H i. by apply search_None. Qed.

Lemma dropMarkdownQuote_plain_witness :
  dropMarkdownQuote (Some (js "Use `x` and ``y`` here")) =
  Some (js "Use `x` and ``y`` here").
Proof.
  apply dropMarkdownQuote_plain; [discriminate|].
  apply tripleFree_search. vm_compute. reflexivity.
Defined.

(** *** A text wrapped in a fence *)

Lemma endsWith_app s p : endsWith (s ++ p) p = true.
Proof.
  unfold endsWith. rewrite length_app.
  replace (length s + length p <? length p) with false
    by (symmetry; apply Nat.ltb_ge; lia).
  replace (length s + length p - length p) with (length s) by lia.
  rewrite drop_app_length. rewrite <- (app_nil_r p) at 1. apply startsWith_app.
Qed.

Lemma stripOpen_closed ps r :
  (∀ f, f ∈ ps → f ∈ patternsToRemove) → stripOpen ps (r ++ LF ++ js "```")
  = r ++ LF ++ js "```".
Proof.
  intros Hps. induction ps as [|f ps IH]; [done|]. cbn [stripOpen].
  rewrite (suffix_same f) by (apply Hps; left). rewrite endsWith_app.
  rewrite andb_false_r. apply IH. intros g Hg. apply Hps. by right.
Qed.

Lemma occursAt_app_r p a s i :
  occursAt p (a ++ s) (length a + i) ↔ occursAt p s i.
Proof. unfold occursAt. by rewrite <- drop_drop, drop_app_length. Qed.

(** The closing fence is found right after a content without three
    backticks in a row. *)
Lemma search_closing c :
  tripleFree c →
  search (c ++ LF ++ js "```") (LF ++ js "```") = Some (length c).
Proof.
  intros Hc. destruct (search _ _) as [i|] eqn:E.
  - apply search_Some in E as [Hi Hmin]. f_equal.
    destruct (decide (i < length c)) as [Hlt|Hge].
    { destruct (tripleFree_no_occurrence c (LF ++ js "```") (LF ++ js "```")
                  1 i); [done|done|lia|done|done|done]. }
    destruct (decide (i = length c)) as [->|Hne]; [done|].
    destruct (Hmin (length c)); [lia|].
    unfold occursAt. by rewrite drop_app_length.
  - apply (search_None _ _ (length c)) in E. destruct E.
    unfold occursAt. by rewrite drop_app_length.
Qed.

(** Settles [Hocc : startsWith (drop i (a ++ x)) p = true] for the
    indices [i] below the length of the explicit text [a], when [p] differs
    from [a] at each of them before [a] ends. *)
Ltac within_opening i Hocc Hlt :=
  first
    [ lia
    | destruct i as [|i];
      [vm_compute in Hocc; discriminate | within_opening i Hocc Hlt] ].

(** The opening fence of another pattern occurs nowhere in a text wrapped
    in the fence of [f]. *)
Lemma wrapped_no_other f g c i :
  f ∈ patternsToRemove → g ∈ patternsToRemove → f ≠ g → tripleFree c →
  ¬ occursAt (prefix g) (prefix f ++ c ++ LF ++ js "```") i.
Proof.
  intros Hf Hg Hne Hc Hocc.
  destruct (decide (i < length (prefix f))) as [Hlt|Hge].
  - unfold occursAt in Hocc.
    repeat (apply elem_of_cons in Hf as [->|Hf]);
      [| | |by apply elem_of_nil in Hf];
      (repeat (apply elem_of_cons in Hg as [->|Hg]);
       [| | |by apply elem_of_nil in Hg]); try done;
      cbn [prefix] in *;
      match type of Hlt with
      | _ < ?L => let n := eval vm_compute in L in change L with n in Hlt
      end;
      within_opening i Hocc Hlt.
  - replace i with (length (prefix f) + (i - length (prefix f))) in Hocc by lia.
    apply occursAt_app_r in Hocc.
    destruct (decide (i - length (prefix f) < length c)) as [Hin|Hout].
    + destruct (tripleFree_no_occurrence c (LF ++ js "```") (prefix g) 0
                  (i - length (prefix f)) Hc (prefix_hasTriple g Hg));
        [lia|done|done|done].
    + replace (i - length (prefix f))
        with (length c + (i - length (prefix f) - length c)) in Hocc by lia.
      apply occursAt_app_r in Hocc. revert Hocc. apply search_None.
      repeat (apply elem_of_cons in Hg as [->|Hg]); [done..|].
      by apply elem_of_nil in Hg.
Qed.

Lemma search_start s p : startsWith s p = true → search s p = Some 0.
Proof. intros H. destruct s; cbn [search]; by rewrite H. Qed.

Lemma search_here s p : search (p ++ s) p = Some 0.
Proof. apply search_start, startsWith_app. Qed.

Lemma scan_remove fuel f r ch i i1 e :
  indexOf r (prefix f) i = Some i1 →
  indexOf r (suffix f) (i1 + prefixLen f) = Some e →
  scan (S fuel) f r ch i
  = scan fuel f (removePair f r i1 e) true
      (length (slice r 0 i1) + length (slice r (i1 + prefixLen f) e)).
Proof. intros E1 E2. cbn [scan]. by rewrite E1, E2. Qed.

Lemma scan_done fuel f r ch i :
  indexOf r (prefix f) i = None → scan (S fuel) f r ch i = Some (r, ch).
Proof. intros E. cbn [scan]. by rewrite E. Qed.

(** The inner loop of [f] on a text wrapped in the fence of [f]: the pair
    goes and the content stays. *)
Lemma scan_wrapped fuel f c ch :
  f ∈ patternsToRemove → tripleFree c →
  scan (S (S fuel)) f (prefix f ++ c ++ LF ++ js "```") ch 0 = Some (c, true).
Proof.
  intros Hf Hc. pose proof (suffix_same f Hf) as Hs.
  pose proof (prefixLen_length f Hf) as Hl.
  set (text := prefix f ++ c ++ LF ++ js "```").
  assert (indexOf text (prefix f) 0 = Some 0) as E1.
  { unfold indexOf, text. by rewrite drop_0, search_here. }
  assert (indexOf text (suffix f) (0 + prefixLen f)
          = Some (length (prefix f) + length c)) as E2.
  { unfold indexOf, text. rewrite Hl, Hs. cbn [Nat.add].
    by rewrite drop_app_length, (search_closing c Hc). }
  assert (slice text (0 + prefixLen f) (length (prefix f) + length c) = c) as E3.
  { unfold slice, text. rewrite Hl. cbn [Nat.add].
    replace (length (prefix f) + length c - length (prefix f)) with (length c) by lia.
    by rewrite drop_app_length, take_app_length. }
  assert (removePair f text 0 (length (prefix f) + length c) = c) as E4.
  { unfold removePair. rewrite E3. unfold slice, sliceFrom. rewrite Hs.
    rewrite (drop_ge text (length (prefix f) + length c + _))
      by (unfold text; rewrite !length_app; lia).
    by rewrite Nat.sub_diag, take_0, app_nil_r. }
  rewrite (scan_remove _ _ _ _ _ _ _ E1 E2), E3, E4.
  apply scan_done, indexOf_None_intro.
  intros j Hj. unfold slice in Hj. cbn [Nat.sub take length Nat.add] in Hj.
  unfold occursAt. rewrite drop_ge by lia.
  repeat (apply elem_of_cons in Hf as [->|Hf]); [done..|].
  by apply elem_of_nil in Hf.
Qed.

Lemma sweep_wrapped fuel f c :
  f ∈ patternsToRemove → tripleFree c →
  sweep (S (S fuel)) patternsToRemove (prefix f ++ c ++ LF ++ js "```") false
  = Some (c, true).
Proof.
  intros Hf Hc.
  assert (∀ g ps ch, g ∈ patternsToRemove →
            sweep (S (S fuel)) (g :: ps) c ch = sweep (S (S fuel)) ps c ch) as Hafter.
  { intros g ps ch Hg. cbn [sweep]. rewrite scan_skip; [done|].
    intros i. by apply tripleFree_no_prefix, prefix_hasTriple. }
  assert (∀ g ps ch, g ∈ patternsToRemove → f ≠ g →
            sweep (S (S fuel)) (g :: ps) (prefix f ++ c ++ LF ++ js "```") ch
            = sweep (S (S fuel)) ps (prefix f ++ c ++ LF ++ js "```") ch) as Hbefore.
  { intros g ps ch Hg Hne. cbn [sweep]. rewrite scan_skip; [done|].
    intros i. by apply wrapped_no_other. }
  assert (∀ ps ch,
            sweep (S (S fuel)) (f :: ps) (prefix f ++ c ++ LF ++ js "```") ch
            = sweep (S (S fuel)) ps c true) as Hat.
  { intros ps ch. cbn [sweep]. by rewrite scan_wrapped. }
  unfold patternsToRemove in *.
  repeat (apply elem_of_cons in Hf as [->|Hf]); [| | |by apply elem_of_nil in Hf].
  - rewrite Hat. by do 2 rewrite Hafter by set_solver.
  - rewrite Hbefore by first [done | set_solver].
    rewrite Hat. by rewrite Hafter by set_solver.
  - do 2 rewrite Hbefore by first [done | set_solver]. by rewrite Hat.
Qed.

(** X4: a text without three backticks in a row that is wrapped in the
    opening and closing fence of a pattern comes back without the fence. *)
Theorem dropMarkdownQuote_unwraps (f : fence) (content : jsstring) :
  f ∈ patternsToRemove → tripleFree content →
  dropMarkdownQuote (Some (prefix f ++ content ++ suffix f)) = Some content.
Proof.
  intros Hf Hc. rewrite (suffix_same f Hf).
  apply (dropMarkdownQuote_run 2).
  { repeat (apply elem_of_cons in Hf as [->|Hf]); [done..|].
    by apply elem_of_nil in Hf. }
  rewrite app_assoc, stripOpen_closed by done. rewrite <- app_assoc.
  cbn [unwrap]. rewrite sweep_wrapped by done.
  change (unwrap 1 content = Some content). by apply unwrap_tripleFree.
Qed.

Lemma dropMarkdownQuote_unwraps_witness :
  dropMarkdownQuote
    (Some (js "```text" ++ LF ++ js "run `ls` now" ++ LF ++ js "```"))
  = Some (js "run `ls` now").
Proof.
  apply (dropMarkdownQuote_unwraps
           (Fence (js "```text" ++ LF) (LF ++ js "```") 8) (js "run `ls` now")).
  - right. left.
  - apply tripleFree_search. vm_compute. reflexivity.
Defined.

(** *** An opening fence that is never closed *)

Lemma endsWith_open a rest :
  tripleFree rest → endsWith (a ++ LF ++ rest) (LF ++ js "```") = false.
Proof.
  intros Hrest. unfold endsWith.
  destruct (length (a ++ LF ++ rest) <? length (LF ++ js "```")) eqn:Hlen; [done|].
  apply Nat.ltb_ge in Hlen. rewrite !length_app in Hlen.
  change (length LF) with 1 in Hlen. change (length (js "```")) with 3 in Hlen.
  destruct (startsWith _ _) eqn:Hocc; [|done]. exfalso.
  pose proof (startsWith_lookup _ _ 1 96%N Hocc eq_refl) as L1.
  pose proof (startsWith_lookup _ _ 2 96%N Hocc eq_refl) as L2.
  pose proof (startsWith_lookup _ _ 3 96%N Hocc eq_refl) as L3.
  rewrite lookup_drop, !length_app in L1, L2, L3.
  change (length LF) with 1 in *. change (length (js "```")) with 3 in *.
  destruct (decide (3 ≤ length rest)) as [Hlong|Hshort].
  - apply (Hrest (length rest - 3)). unfold occursAt.
    apply triple_lookup; rewrite lookup_drop.
    + rewrite app_assoc, lookup_app_r in L1 by (rewrite length_app; simpl; lia).
      rewrite <- L1. f_equal. rewrite length_app. simpl. lia.
    + rewrite app_assoc, lookup_app_r in L2 by (rewrite length_app; simpl; lia).
      rewrite <- L2. f_equal. rewrite length_app. simpl. lia.
    + rewrite app_assoc, lookup_app_r in L3 by (rewrite length_app; simpl; lia).
      rewrite <- L3. f_equal. rewrite length_app. simpl. lia.
  - assert ((a ++ LF ++ rest) !! length a = Some 96%N) as L.
    { destruct (decide (length rest = 2)) as [E|];
        [rewrite <- L1; f_equal; lia|].
      destruct (decide (length rest = 1)) as [E|];
        [rewrite <- L2; f_equal; lia|].
      rewrite <- L3. f_equal. lia. }
    by rewrite lookup_app_r, Nat.sub_diag in L.
Qed.

Lemma stripOpen_hit f ps r :
  startsWith r (prefix f) = true → endsWith r (suffix f) = false →
  stripOpen (f :: ps) r = sliceFrom r (prefixLen f).
Proof. intros H1 H2. cbn [stripOpen]. by rewrite H1, H2. Qed.

Lemma stripOpen_open f rest :
  f ∈ patternsToRemove → tripleFree rest →
  stripOpen patternsToRemove (prefix f ++ rest) = rest.
Proof.
  intros Hf Hrest. unfold patternsToRemove in *.
  repeat (apply elem_of_cons in Hf as [->|Hf]); [| | |by apply elem_of_nil in Hf];
    cbn [prefix].
  - rewrite stripOpen_hit; [done|apply startsWith_app|].
    rewrite <- app_assoc. by apply endsWith_open.
  - rewrite stripOpen_skip by (vm_compute; reflexivity).
    rewrite stripOpen_hit; [done|apply startsWith_app|].
    rewrite <- app_assoc. by apply endsWith_open.
  - do 2 rewrite stripOpen_skip by (vm_compute; reflexivity).
    rewrite stripOpen_hit; [done|apply startsWith_app|].
    rewrite <- app_assoc. by apply endsWith_open.
Qed.

(** X5: a text without three backticks in a row that follows the opening
    fence of a pattern, with no closing fence, comes back without the
    opening fence. *)
Theorem dropMarkdownQuote_unterminated (f : fence) (rest : jsstring) :
  f ∈ patternsToRemove → tripleFree rest →
  dropMarkdownQuote (Some (prefix f ++ rest)) = Some rest.
Proof.
  intros Hf Hrest. apply (dropMarkdownQuote_run 1).
  { repeat (apply elem_of_cons in Hf as [->|Hf]); [done..|].
    by apply elem_of_nil in Hf. }
  rewrite stripOpen_open by done. by apply unwrap_tripleFree.
Qed.

Lemma dropMarkdownQuote_unterminated_witness :
  dropMarkdownQuote (Some (js "```markdown" ++ LF ++ js "# Title")) =
  Some (js "# Title").
Proof.
  apply (dropMarkdownQuote_unterminated
           (Fence (js "```markdown" ++ LF) (LF ++ js "```") 12) (js "# Title")).
  - left.
  - apply tripleFree_search. vm_compute. reflexivity.
Defined.

End DropMarkdownQuoteMore.

(** ** More on the citation index *)

Module IndexMore.
Import JSString Builtins CitationTsx Markdown Spec IndexFacts.

Lemma forEach_lookup_none map citations index key :
  (∀ c, c ∈ citations → key ∉ forms c) →
  forEach map citations index !! key = map !! key.
Proof.
  revert map index. induction citations as [|c citations IH]; intros map index H;
    [done|].
  cbn [forEach]. rewrite IH by (intros d Hd; apply H; by right).
  rewrite addCitation_lookup, bool_decide_eq_false_2; [done|]. apply H. left.
Qed.

Lemma latest_unique {A} (P : A → Prop) l i j :
  latest P l i → latest P l j → i = j.
Proof.
  intros [(x & Hx & Px) Hi] [(y & Hy & Py) Hj].
  destruct (Nat.lt_trichotomy i j) as [Hlt|[->|Hlt]]; [|done|].
  - by destruct (Hi j y Hlt Hy).
  - by destruct (Hj i x Hlt Hx).
Qed.

Lemma latest_exists {A} (P : A → Prop) `{!∀ x, Decision (P x)} l :
  (∃ x, x ∈ l ∧ P x) → ∃ i, latest P l i.
Proof.
  induction l as [|x l IH]; intros (y & Hy & Py); [by apply elem_of_nil in Hy|].
  destruct (decide (Exists P l)) as [Hl%Exists_exists|Hl].
  - destruct (IH Hl) as (i & (z & Hz & Pz) & Hmax). exists (S i).
    split; [by exists z|]. intros [|j] w Hj Hw; [lia|]. apply (Hmax j w); [lia|done].
  - rewrite Exists_exists in Hl.
    exists 0. apply elem_of_cons in Hy as [->|Hy]; [|destruct Hl; eauto].
    split; [by exists x|]. intros [|j] w Hj Hw Pw; [lia|].
    apply Hl. exists w. split; [|done]. by apply (list_elem_of_lookup_2 l j).
Qed.

Lemma citationMap_Some_inv citations key i :
  citationMap citations !! key = Some i →
  latest (λ c, key ∈ forms c) citations i.
Proof.
  intros Hi.
  destruct (decide (Exists (λ c, key ∈ forms c) citations))
    as [Hex%Exists_exists|Hno]; [|rewrite Exists_exists in Hno].
  - destruct (latest_exists _ _ Hex) as (j & Hj).
    rewrite (citationMap_latest _ _ _ Hj) in Hi. by injection Hi as <-.
  - unfold citationMap in Hi. rewrite forEach_lookup_none in Hi; [done|].
    intros c Hc Hkey. apply Hno. eauto.
Qed.

(** X6: the index maps a key to [i] exactly when [i] is the latest
    citation that has the key among its forms, and has no entry for a key
    that is a form of no citation; an index it gives is within the list. *)
Theorem citationMap_lookup (citations : list Citation) (key : jsstring) :
  (∀ i, citationMap citations !! key = Some i ↔
        latest (λ c, key ∈ forms c) citations i) ∧
  (citationMap citations !! key = None ↔ ∀ c, c ∈ citations → key ∉ forms c) ∧
  (∀ i, citationMap citations !! key = Some i → i < length citations).
Proof.
  split; [|split].
  - intros i. split; [apply citationMap_Some_inv|apply citationMap_latest].
  - split.
    + intros Hnone c Hc Hkey.
      destruct (latest_exists (λ c, key ∈ forms c) citations) as (j & Hj); [eauto|].
      apply citationMap_latest in Hj. congruence.
    + intros Hno. unfold citationMap. by rewrite forEach_lookup_none.
  - intros i [(c & Hc & _) _]%citationMap_Some_inv. by apply lookup_lt_Some in Hc.
Qed.

Lemma citationMap_lookup_witness :
  citationMap [bare (js "http://a.com/1"); bare (js "http://a.com/2")]
    !! js "http://a.com/3" = None.
Proof.
  apply citationMap_lookup. intros c Hc.
  repeat (apply elem_of_cons in Hc as [->|Hc]);
    [vm_compute; intros H; apply list_elem_of_In in H; simpl in H;
     intuition discriminate..|].
  by apply elem_of_nil in Hc.
Defined.

(** X7: when no key is a form of two citations, every form of a citation
    (its url, the decoded and the encoded url) is looked up to the index of
    that citation. *)
Theorem citationMap_round_trip (citations : list Citation) (i : nat)
    (c : Citation) (key : jsstring) :
  collisionFree citations → citations !! i = Some c → key ∈ forms c →
  citationMap citations !! key = Some i.
Proof.
  intros Hfree Hc Hkey. apply citationMap_latest. split; [by exists c|].
  intros j d Hj Hd Hkey'. specialize (Hfree i j c d key Hc Hd Hkey Hkey'). lia.
Qed.

Lemma citationMap_round_trip_witness :
  citationMap [bare (js "http://a.com/x y"); bare (js "http://b.com/")]
    !! js "http://a.com/x%20y" = Some 0.
Proof.
  apply (citationMap_round_trip _ 0 (bare (js "http://a.com/x y"))).
  - intros i j ci cj key Hi Hj Hki Hkj.
    destruct i as [|[|i]], j as [|[|j]]; try done;
      injection Hi as <-; injection Hj as <-;
      vm_compute in Hki, Hkj;
      apply list_elem_of_In in Hki; apply list_elem_of_In in Hkj;
      simpl in Hki, Hkj; intuition (subst; discriminate).
  - reflexivity.
  - vm_compute. apply list_elem_of_In. simpl. auto.
Defined.

(** *** The empty key *)

Lemma percentAll_utf8_nonempty cp : percentAll (utf8 cp) ≠ [].
Proof. unfold utf8. by repeat case_match. Qed.

Lemma app_nonempty_l {A} (l k : list A) : l ≠ [] → l ++ k ≠ [].
Proof. by destruct l. Qed.

Lemma Encode_nonempty extra c s r : Encode extra (c :: s) = Some r → r ≠ [].
Proof.
  cbn [Encode].
  repeat case_match; try done; intros Hr;
    repeat match goal with
    | H : _ <$> ?o = Some _ |- _ => destruct o; [injection H as <-|done]
    end;
    first [done | apply app_nonempty_l, percentAll_utf8_nonempty].
Qed.

Lemma utf16_nonempty cp : utf16 cp ≠ [].
Proof. unfold utf16. by case_match. Qed.

Lemma Decode_nonempty fuel c s r : Decode fuel (c :: s) = Some r → r ≠ [].
Proof.
  destruct fuel as [|fuel]; [done|]. cbn [Decode].
  destruct (c =? 37)%N.
  - destruct (parseEscape (c :: s)) as [[b rest]|]; [|done].
    cbn [mbind option_bind].
    repeat case_match; try done; intros Hr;
      repeat match goal with
      | H : _ ≫= _ = Some _ |- _ =>
          apply bind_Some in H as (? & ? & H)
      | H : (let '(_, _) := ?x in _) = Some _ |- _ => destruct x
      | H : _ <$> ?o = Some _ |- _ => destruct o; [injection H as <-|done]
      end;
      first [done | apply app_nonempty_l, utf16_nonempty].
  - destruct (Decode fuel s); [|done]. by intros [= <-].
Qed.

Lemma forms_nonempty c key : key ∈ forms c → key ≠ [].
Proof.
  unfold forms. destruct (url c) as [|u0 u] eqn:Eu; [by intros ?%elem_of_nil|].
  intros [->|Hin]%elem_of_cons; [done|].
  apply elem_of_app in Hin as [Hin|Hin].
  - destruct (decodeURIComponent (u0 :: u)) as [d|] eqn:Ed;
      [|by apply elem_of_nil in Hin].
    case_bool_decide; [by apply elem_of_nil in Hin|].
    apply list_elem_of_singleton in Hin as ->. by eapply Decode_nonempty.
  - destruct (encodeURI (u0 :: u)) as [e|] eqn:Ee;
      [|by apply elem_of_nil in Hin].
    case_bool_decide; [by apply elem_of_nil in Hin|].
    apply list_elem_of_singleton in Hin as ->. by eapply Encode_nonempty.
Qed.

(** The empty string is never a key of the index. *)
Lemma citationMap_empty_key citations : citationMap citations !! [] = None.
Proof.
  unfold citationMap. rewrite forEach_lookup_none; [done|].
  intros c _ H. by apply forms_nonempty in H.
Qed.

End IndexMore.

(** ** More on the [a] renderer and on [CitationLink] *)

Module LinkMore.
Import JSString Builtins Regex RegexFacts CitationTsx Markdown CitationView
  Patterns PatternFacts Spec SpecFacts LinkFacts IndexFacts IndexMore
  CitationFacts.

Local Set Warnings "-clear-no-such-hyp".

(** X8: a link whose href is missing or empty is never taken for a
    citation: without citations it is a plain link, and with citations it
    is handed to [CitationLink] without an id, which renders the regular
    link. *)
Theorem a_without_href (flag : bool) (citations : list Citation)
    (href : option jsstring) (children : nodes) :
  default [] href = [] →
  (citations = [] →
   a flag citations href children = LinkElement href flag children) ∧
  (citations ≠ [] →
   a flag citations href children
   = CitationLinkElement [] citations None children ∧
   mount (a flag citations href children) = Some (PlainAnchor [])).
Proof.
  intros Hh.
  assert (a flag citations href children
          = if 0 <? length citations
            then CitationLinkElement [] citations None children
            else LinkElement href flag children) as E.
  { rewrite a_known_or_plain by (by rewrite Hh).
    by rewrite Hh, citationMap_empty_key. }
  rewrite E. split.
  - by intros ->.
  - intros Hne. by destruct citations.
Qed.

Lemma a_without_href_witness :
  mount (a true [bare (js "http://a.com/")] None (One (NText (js "here"))))
  = Some (PlainAnchor []).
Proof.
  apply (a_without_href true [bare (js "http://a.com/")] None
           (One (NText (js "here")))); [reflexivity|discriminate].
Defined.

(** The four returns of [a]. *)
Lemma a_cases flag citations href children :
  let h := default [] href in
  let e := a flag citations href children in
  let other := (∀ ds, ¬ referenceTarget h ds) ∧
               (∀ ds, ¬ inlineNumericReferenceGrouped h ds) in
  (∃ ds, referenceTarget h ds ∧
         e = TargetSpan (js "ref-" ++ ds)
               (js "font-bold text-primary scroll-mt-20")
               (js "[" ++ ds ++ js "]")) ∨
  (∃ ds, inlineNumericReferenceGrouped h ds ∧ (∀ ds', ¬ referenceTarget h ds') ∧
         e = MarkerAnchor h
               (js "text-primary hover:underline cursor-pointer marker-link")
               ds children) ∨
  (other ∧ citations ≠ [] ∧
   ((∃ i, citationMap citations !! h = Some i ∧
          ¬ shortNumericMarker (childrenText children) ∧
          e = CitationLinkElement h citations
                (Some (js "ref-" ++ toString (i + 1))) children) ∨
    ((citationMap citations !! h = None ∨
      shortNumericMarker (childrenText children)) ∧
     e = CitationLinkElement h citations None children))) ∨
  (other ∧ citations = [] ∧ e = LinkElement href flag children).
Proof.
  intros h e other. subst e other. unfold a. fold h.
  rewrite strMatch_targetPattern, strMatch_linkPattern.
  destruct (targetDigits h) as [x|] eqn:Et.
  { apply targetDigits_Some in Et as (ds & Hd & ->). left. by exists ds. }
  destruct (linkDigits h) as [x|] eqn:El.
  { apply linkDigits_Some in El as (ds & Hd & ->). right. left. exists ds.
    split; [done|]. split; [|done]. by apply (proj1 (not_target h)). }
  pose proof (proj1 (not_target h) Et) as Ht.
  pose proof (proj1 (not_grouped h) El) as Hl.
  right. right.
  destruct citations as [|c citations]; [by right|]. left.
  cbn [length Nat.ltb Nat.leb]. split; [done|]. split; [done|].
  destruct (citationMap (c :: citations) !! h) as [i|] eqn:Ei.
  - destruct (test inlineCitationPattern (childrenText children)) eqn:Etest;
      cbn [negb].
    + right. split; [|done]. right. by apply test_marker.
    + left. exists i. repeat split; try done. intros Hm%test_marker. congruence.
  - right. split; [by left|done].
Qed.

(** X9: which element [a] returns is decided by the form of the href and
    by whether there are citations, and by nothing else: the label of a
    reference target for the hrefs of that form only, the in-page anchor for
    the inline numeric references only, a [CitationLink] for every other
    href when there are citations, the plain link for every other href when
    there are none. *)
Theorem a_kinds (flag : bool) (citations : list Citation)
    (href : option jsstring) (children : nodes) :
  let h := default [] href in
  let e := a flag citations href children in
  let other := (∀ ds, ¬ referenceTarget h ds) ∧
               (∀ ds, ¬ inlineNumericReferenceGrouped h ds) in
  ((∃ id className text, e = TargetSpan id className text) ↔
   ∃ ds, referenceTarget h ds) ∧
  ((∃ className ds, e = MarkerAnchor h className ds children) ↔
   ∃ ds, inlineNumericReferenceGrouped h ds) ∧
  ((∃ id, e = CitationLinkElement h citations id children) ↔
   citations ≠ [] ∧ other) ∧
  (e = LinkElement href flag children ↔ citations = [] ∧ other).
Proof.
  intros h e other.
  pose proof (a_cases flag citations href children) as Hc. cbv zeta in Hc.
  fold h e in Hc. subst other. clearbody e.
  assert (∀ ds ds', referenceTarget h ds → ¬ inlineNumericReferenceGrouped h ds')
    as Hsep.
  { intros ds ds' Hd Hd'. apply (grouped_not_target h) in Hd'.
    by destruct (proj1 (not_target h) Hd' ds). }
  destruct Hc as [(ds & Hd & ->)|[(ds & Hd & Hnt & ->)|
                  [((Hnt & Hng) & Hne & Hc)|((Hnt & Hng) & -> & ->)]]].
  - naive_solver.
  - naive_solver.
  - assert (∃ id, e = CitationLinkElement h citations id children) as (id & ->)
      by (destruct Hc as [(i & _ & _ & ->)|[_ ->]]; eauto).
    naive_solver.
  - naive_solver.
Qed.

Lemma a_kinds_witness :
  ∃ className ds,
    a true [bare (js "http://a.com/")] (Some (js "#ref7")) (One (NText (js "7")))
    = MarkerAnchor (js "#ref7") className ds (One (NText (js "7"))).
Proof.
  apply (a_kinds true [bare (js "http://a.com/")] (Some (js "#ref7"))
           (One (NText (js "7")))).
  exists (js "7"), (js "#ref"). split; [reflexivity|].
  split; [auto|]. split; [discriminate|reflexivity].
Defined.

Lemma url_in_forms c : url c ≠ [] → url c ∈ forms c.
Proof. unfold forms. destruct (url c); [done|]. intros _. left. Qed.

(** X10: an id that [a] attaches is [ref-] and a number from 1 to the
    number of citations; the citation with that number in [CitationList]
    has the href among its forms, and the text of the link is not a short
    numeric marker. *)
Theorem a_id_numbers_a_citation (flag : bool) (citations : list Citation)
    (href : option jsstring) (children : nodes) (href' : jsstring)
    (citations' : list Citation) (id : jsstring) (children' : nodes) :
  a flag citations href children
  = CitationLinkElement href' citations' (Some id) children' →
  ∃ n rows r,
    id = js "ref-" ++ toString n ∧ 1 ≤ n ≤ length citations ∧
    CitationList citations = Some rows ∧ rows !! (n - 1) = Some r ∧
    number r = n ∧ default [] href ∈ forms (shown r) ∧
    ¬ shortNumericMarker (childrenText children).
Proof.
  intros He.
  pose proof (a_cases flag citations href children) as Hc. cbv zeta in Hc.
  rewrite He in Hc.
  destruct Hc as [(ds & _ & [=])|[(ds & _ & _ & [=])|
                  [(_ & Hne & Hc)|(_ & _ & [=])]]].
  destruct Hc as [(i & Hi & Hm & [= -> -> -> ->])|[_ [=]]].
  apply citationMap_Some_inv in Hi as [(c & Hc & Hkey) _].
  exists (i + 1), (imap rowOf citations), (rowOf i c).
  pose proof (lookup_lt_Some _ _ _ Hc).
  split; [done|]. split; [lia|]. split; [by destruct citations|].
  split; [|done].
  replace (i + 1 - 1) with i by lia. by rewrite list_lookup_imap, Hc.
Qed.

Lemma a_id_numbers_a_citation_witness :
  ∃ n, js "ref-2" = js "ref-" ++ toString n ∧ 1 ≤ n ≤ 2.
Proof.
  destruct (a_id_numbers_a_citation true
              [bare (js "http://a.com/"); bare (js "http://b.com/")]
              (Some (js "http://b.com/")) (One (NText (js "B site")))
              (js "http://b.com/")
              [bare (js "http://a.com/"); bare (js "http://b.com/")]
              (js "ref-2") (One (NText (js "B site"))))
    as (n & rows & r & Hid & Hn & _); [vm_compute; reflexivity|].
  exists n. split; [exact Hid|exact Hn].
Defined.

(** X11: a text that begins with a bracket and a caret, the footnote form
    [[^1]], is not an inline marker for the pattern. *)
Theorem footnote_form_not_inline (rest : jsstring) :
  test inlineCitationPattern (js "[^" ++ rest) = false.
Proof. rewrite test_inlineCitationPattern. vm_compute. reflexivity. Qed.

(** The two lookups agree on the url of a citation that no other
    citation has among its forms. *)
Lemma lookups_agree citations href i c :
  citations !! i = Some c → url c = href → href ≠ [] →
  (∀ j d, citations !! j = Some d → href ∈ forms d → j = i) →
  citationMap citations !! href = Some i ∧
  CitationLink_lookup href citations = (Some c, Some i).
Proof.
  intros Hc Hurl Hne Honly.
  assert (href ∈ forms c) as Hkey by (subst href; by apply url_in_forms).
  split.
  - apply citationMap_latest. split; [by exists c|].
    intros j d Hj Hd Hkd. specialize (Honly j d Hd Hkd). lia.
  - rewrite (CitationLink_lookup_passes href citations Hne).
    assert (findIndex (λ c0, strictEq (url c0) href) citations = Some i) as ->.
    { apply findIndex_Some. split.
      - exists c. split; [done|]. by apply strictEq_true.
      - intros j d Hj Hd Hurl'%strictEq_true.
        assert (j = i); [|lia]. apply (Honly j d Hd).
        rewrite <- Hurl'. apply url_in_forms. by rewrite Hurl'. }
    cbn [mbind option_bind]. by rewrite Hc.
Qed.

(** X12: for the url of a citation that no other citation has among its
    forms, and that is not an in-page anchor, the id [a] and [CitationLink]
    give the link in the reference list is the element the click on an
    inline marker of the same href scrolls to; when the document has no such
    element the click is left to the browser. *)
Theorem marker_scrolls_to_entry (flag : bool) (citations : list Citation)
    (href : jsstring) (i : nat) (c : Citation) (title marker : nodes)
    (document : list jsstring) :
  citations !! i = Some c → url c = href → href ≠ [] →
  (∀ j d, citations !! j = Some d → href ∈ forms d → j = i) →
  (∀ ds, ¬ referenceTarget href ds) →
  (∀ ds, ¬ inlineNumericReferenceGrouped href ds) →
  ¬ shortNumericMarker (childrenText title) →
  shortNumericMarker (childrenText marker) →
  let ref := js "ref-" ++ toString (i + 1) in
  let inline := HoverAnchor None href c (Some i) in
  mount (a flag citations (Some href) title)
  = Some (HoverAnchor (Some ref) href c (Some i)) ∧
  mount (a flag citations (Some href) marker) = Some inline ∧
  (ref ∈ document →
   linkOnClick inline document
   = Some [PreventDefault; ScrollIntoView ref (js "smooth") (js "start")]) ∧
  (ref ∉ document → linkOnClick inline document = Some []).
Proof.
  intros Hc Hurl Hne Honly Ht%not_target Hl%not_grouped Htitle Hmarker ref inline.
  destruct (lookups_agree citations href i c Hc Hurl Hne Honly) as [Hmap Hlink].
  assert ((0 <? length citations) = true) as Hlen
    by (apply Nat.ltb_lt; apply lookup_lt_Some in Hc; lia).
  assert (∀ children id,
            (if negb (test inlineCitationPattern (childrenText children))
             then Some ref else None) = id →
            mount (a flag citations (Some href) children)
            = Some (HoverAnchor id href c (Some i))) as Hmount.
  { intros children id <-. rewrite a_known_or_plain by done.
    cbn [default from_option id]. rewrite Hlen, Hmap. cbn [mount].
    unfold CitationLink. by rewrite Hlink. }
  split; [|split; [|split]].
  - apply Hmount. destruct (test _ _) eqn:E; [|done].
    by apply test_marker in E.
  - apply Hmount. apply test_marker in Hmarker. by rewrite Hmarker.
  - intros Hin. cbn [linkOnClick inline handleCitationClick]. fold ref.
    unfold getElementById. by rewrite (bool_decide_eq_true_2 _ Hin).
  - intros Hout. cbn [linkOnClick inline handleCitationClick]. fold ref.
    unfold getElementById. by rewrite (bool_decide_eq_false_2 _ Hout).
Qed.

Lemma marker_scrolls_to_entry_witness :
  let citations := [bare (js "http://a.com/"); bare (js "http://b.com/")] in
  mount (a true citations (Some (js "http://b.com/")) (One (NText (js "[2]"))))
  = Some (HoverAnchor None (js "http://b.com/") (bare (js "http://b.com/")) (Some 1)) ∧
  linkOnClick
    (HoverAnchor None (js "http://b.com/") (bare (js "http://b.com/")) (Some 1))
    [js "ref-1"; js "ref-2"]
  = Some [PreventDefault; ScrollIntoView (js "ref-2") (js "smooth") (js "start")].
Proof.
  intros citations.
  destruct (marker_scrolls_to_entry true citations (js "http://b.com/") 1
              (bare (js "http://b.com/")) (One (NText (js "B site")))
              (One (NText (js "[2]"))) [js "ref-1"; js "ref-2"])
    as (_ & Hinline & Hclick & _).
  - reflexivity.
  - reflexivity.
  - discriminate.
  - intros [|[|j]] d Hd Hkey; [|done|done].
    injection Hd as <-. vm_compute in Hkey.
    apply list_elem_of_In in Hkey. simpl in Hkey. intuition discriminate.
  - apply not_target. vm_compute. reflexivity.
  - apply not_grouped. vm_compute. reflexivity.
  - intros H%test_marker. vm_compute in H. discriminate.
  - apply test_marker. vm_compute. reflexivity.
  - split; [exact Hinline|]. apply Hclick. vm_compute.
    apply list_elem_of_In. simpl. auto.
Defined.

End LinkMore.

(** ** [CitationList] *)

Module ListMore.
Import JSString Builtins CitationTsx CitationView.

Lemma uintDigits_inj d d' : uintDigits d = uintDigits d' → d = d'.
Proof.
  revert d'. induction d; intros []; cbn [uintDigits]; intros [=]; f_equal; auto.
Qed.

(** Different indices have different numerals. *)
Lemma toString_inj n m : toString n = toString m → n = m.
Proof.
  intros H%uintDigits_inj.
  rewrite <- (DecimalNat.Unsigned.of_to n), <- (DecimalNat.Unsigned.of_to m).
  by rewrite H.
Qed.

Lemma key_lookup citations i c :
  citations !! i = Some c →
  (key <$> imap rowOf citations) !! i = Some (key (rowOf i c)).
Proof. intros Hc. by rewrite list_lookup_fmap, list_lookup_imap, Hc. Qed.

(** X13: [CitationList] renders nothing for no citations and otherwise one
    row per citation, in order and numbered from 1; the React keys of the
    rows are pairwise distinct exactly when no two citations share a url
    that is not empty and no url is the numeral of the index of a citation
    with an empty url. *)
Theorem CitationList_rows (citations : list Citation) :
  (CitationList citations = None ↔ citations = []) ∧
  ∀ rows, CitationList citations = Some rows →
    length rows = length citations ∧
    (∀ k r, rows !! k = Some r →
            number r = k + 1 ∧ citations !! k = Some (shown r)) ∧
    (NoDup (key <$> rows) ↔
     ∀ i j ci cj,
       citations !! i = Some ci → citations !! j = Some cj → i ≠ j →
       url ci ≠ [] →
       url ci ≠ url cj ∧ (url cj = [] → url ci ≠ toString j)).
Proof.
  split; [by destruct citations|].
  intros rows Hrows.
  assert (rows = imap rowOf citations) as ->
    by (destruct citations; [done|by injection Hrows]).
  split; [apply length_imap|]. split.
  - intros k r. rewrite list_lookup_imap.
    destruct (citations !! k) as [c|]; [|done]. by intros [= <-].
  - rewrite NoDup_alt. split.
    + intros Hnd i j ci cj Hi Hj Hne Hu.
      assert (key (rowOf i ci) ≠ key (rowOf j cj)) as Hk.
      { intros E. apply Hne. apply (Hnd i j (key (rowOf i ci))).
        - by apply key_lookup.
        - rewrite E. by apply key_lookup. }
      unfold rowOf in Hk. cbn [key] in Hk.
      destruct (url ci) as [|u0 u] eqn:Ei; [done|].
      destruct (url cj) as [|v0 v] eqn:Ej; [|done]. done.
    + intros Hcond i j x Hi Hj.
      rewrite list_lookup_fmap, list_lookup_imap in Hi, Hj.
      destruct (citations !! i) as [ci|] eqn:Eci; [|done].
      destruct (citations !! j) as [cj|] eqn:Ecj; [|done].
      injection Hi as Hi. injection Hj as Hj.
      destruct (decide (i = j)) as [|Hne]; [done|]. exfalso.
      pose proof (Hcond i j ci cj Eci Ecj Hne) as Hij.
      pose proof (Hcond j i cj ci Ecj Eci (not_eq_sym Hne)) as Hji.
      unfold rowOf in Hi, Hj. cbn [key] in Hi, Hj.
      destruct (url ci) as [|u0 u] eqn:Ei, (url cj) as [|v0 v] eqn:Ej.
      * apply Hne, toString_inj. congruence.
      * destruct Hji as [_ Hji]; [done|]. apply Hji; [done|]. congruence.
      * destruct Hij as [_ Hij]; [done|]. apply Hij; [done|]. congruence.
      * destruct Hij as [Hij _]; [done|]. apply Hij. congruence.
Qed.

Lemma CitationList_rows_witness :
  ∃ rows,
    CitationList [bare (js "1"); bare []] = Some rows ∧ ¬ NoDup (key <$> rows).
Proof.
  exists (imap rowOf [bare (js "1"); bare []]). split; [reflexivity|].
  intros Hnd.
  destruct (CitationList_rows [bare (js "1"); bare []]) as [_ H].
  destruct (H _ eq_refl) as (_ & _ & Hkeys).
  destruct (proj1 Hkeys Hnd 0 1 (bare (js "1")) (bare []))
    as [_ Hnum]; [done|done|done|done|].
  by apply Hnum.
Defined.

End ListMore.

(** ** The URI coding functions: decoding undoes encoding *)

Module UriFacts.
Import JSString Builtins WellFormed.

#[local] Ltac Zify.zify_post_hook ::= Z.to_euclidean_division_equations.

Lemma hex_round v : (v < 16)%N → hexValue (hexDigit v) = Some v.
Proof.
  intros Hv. unfold hexValue, hexDigit.
  destruct (N.ltb_spec v 10).
  - replace ((48 <=? 48 + v) && (48 + v <=? 57))%N with true; [f_equal; lia|].
    symmetry. apply andb_true_iff. split; apply N.leb_le; lia.
  - replace ((48 <=? 55 + v) && (55 + v <=? 57))%N with false
      by (symmetry; apply andb_false_iff; right; apply N.leb_gt; lia).
    replace ((65 <=? 55 + v) && (55 + v <=? 70))%N with true; [f_equal; lia|].
    symmetry. apply andb_true_iff. split; apply N.leb_le; lia.
Qed.

Lemma parseEscape_percent o rest :
  (o < 256)%N → parseEscape (percent o ++ rest) = Some (o, rest).
Proof.
  intros Ho. unfold percent. cbn [app parseEscape].
  rewrite !hex_round by lia. cbn [mbind option_bind]. f_equal. f_equal. lia.
Qed.

(** Decides the comparisons of the goal, leaving the cases that the
    hypotheses allow. *)
Ltac ncases :=
  repeat match goal with
    | |- context [(?a <? ?b)%N] =>
        destruct (N.ltb_spec a b); try (exfalso; lia)
    | |- context [(?a <=? ?b)%N] =>
        destruct (N.leb_spec a b); try (exfalso; lia)
    end;
  cbn [andb orb negb].

Lemma Decode_escape fuel b rest :
  (b < 256)%N →
  Decode (S fuel) (percent b ++ rest)
  = match leadingOnes b with
    | 0 => (b ::.) <$> Decode fuel rest
    | 2 | 3 | 4 =>
        '(bs, rest') ← continuation (leadingOnes b - 1) rest;
        cp ← utf8Decode b bs;
        (utf16 cp ++.) <$> Decode fuel rest'
    | _ => None
    end.
Proof.
  intros Hb. pose proof (parseEscape_percent b rest Hb) as E.
  unfold percent in *. cbn [app] in *. cbn [Decode].
  change (37 =? 37)%N with true. cbv iota. by rewrite E.
Qed.

Lemma continuation_percentAll bs rest :
  Forall (λ b, (b < 256)%N) bs →
  continuation (length bs) (percentAll bs ++ rest) = Some (bs, rest).
Proof.
  induction 1 as [|b bs Hb _ IH]; [done|].
  unfold percentAll. cbn [fmap list_fmap concat length continuation].
  rewrite <- app_assoc, (parseEscape_percent b _ Hb). cbn [mbind option_bind].
  fold (percentAll bs). by rewrite IH.
Qed.

(** The octets of a scalar value and what the decoder makes of them. *)
Lemma utf8_decodes cp :
  scalar cp →
  ∃ b bs, utf8 cp = b :: bs ∧ Forall (λ x, (x < 256)%N) (b :: bs) ∧
    ((bs = [] ∧ b = cp ∧ leadingOnes b = 0 ∧ (cp < 65536)%N) ∨
     (leadingOnes b = S (length bs) ∧ 1 ≤ length bs ≤ 3 ∧
      utf8Decode b bs = Some cp)).
Proof.
  intros [Hmax Hsur]. unfold utf8.
  destruct (N.ltb_spec cp 128); [|destruct (N.ltb_spec cp 2048);
                                  [|destruct (N.ltb_spec cp 65536)]].
  - eexists _, _. split; [done|]. split; [repeat constructor; lia|]. left.
    repeat split; [|lia]. unfold leadingOnes. by ncases.
  - eexists _, _. split; [done|]. split; [repeat constructor; lia|]. right.
    split; [unfold leadingOnes; by ncases|]. split; [simpl; lia|].
    unfold utf8Decode. cbn [forallb length foldl].
    change (2 ^ (7 - N.of_nat 2))%N with 32%N.
    ncases; f_equal; lia.
  - eexists _, _. split; [done|]. split; [repeat constructor; lia|]. right.
    split; [unfold leadingOnes; by ncases|]. split; [simpl; lia|].
    unfold utf8Decode. cbn [forallb length foldl].
    change (2 ^ (7 - N.of_nat 3))%N with 16%N.
    ncases; f_equal; lia.
  - eexists _, _. split; [done|]. split; [repeat constructor; lia|]. right.
    split; [unfold leadingOnes; by ncases|]. split; [simpl; lia|].
    unfold utf8Decode. cbn [forallb length foldl].
    change (2 ^ (7 - N.of_nat 4))%N with 8%N.
    ncases; f_equal; lia.
Qed.

(** One step of the decoder over the escapes of one scalar value. *)
Lemma Decode_utf8 fuel cp rest :
  scalar cp →
  Decode (S fuel) (percentAll (utf8 cp) ++ rest)
  = (utf16 cp ++.) <$> Decode fuel rest.
Proof.
  intros Hcp.
  destruct (utf8_decodes cp Hcp) as (b & bs & -> & Hlt & Hcase).
  pose proof (Forall_inv Hlt) as Hb. pose proof (Forall_inv_tail Hlt) as Hbs.
  unfold percentAll. cbn [fmap list_fmap concat]. fold (percentAll bs).
  rewrite <- app_assoc, Decode_escape by done.
  destruct Hcase as [(-> & -> & -> & Hbmp)|(-> & Hlen & Hdec)].
  - cbn [percentAll fmap list_fmap concat app]. unfold utf16.
    by destruct (N.ltb_spec cp 65536); [|lia].
  - replace (S (length bs) - 1) with (length bs) by lia.
    rewrite continuation_percentAll by done. cbn [mbind option_bind].
    rewrite Hdec. cbn [mbind option_bind].
    by destruct (length bs) as [|[|[|[|?]]]]; try lia.
Qed.

Lemma percentAll_utf8_length cp : 1 ≤ length (percentAll (utf8 cp)).
Proof. unfold utf8. by repeat case_match; cbn; lia. Qed.

Lemma Decode_nil fuel : Decode fuel [] = Some [].
Proof. by destruct fuel. Qed.

(** Decoding with enough fuel undoes [Encode], whatever is left
    unescaped besides the percent sign. *)
Lemma Encode_Decode extra s r fuel :
  extra 37%N = false → codeUnits s → Encode extra s = Some r →
  length r ≤ fuel → Decode fuel r = Some s.
Proof.
  intros Hextra. remember (length s) as n eqn:Hn.
  revert s r fuel Hn. induction (lt_wf n) as [n _ IH].
  intros [|c s] r fuel -> Hs; cbn [Encode].
  { intros [= <-] _. apply Decode_nil. }
  pose proof (Forall_inv Hs) as Hc. pose proof (Forall_inv_tail Hs) as Hs'.
  cbv beta in Hc.
  destruct (isAlwaysUnescaped c || extra c) eqn:Hun.
  { destruct (Encode extra s) as [r'|] eqn:Er; [|done]. intros [= <-] Hfuel.
    destruct fuel as [|fuel]; [simpl in Hfuel; lia|]. cbn [Decode].
    assert ((c =? 37)%N = false) as ->.
    { apply N.eqb_neq. intros ->. by rewrite Hextra in Hun. }
    rewrite (IH (length s) ltac:(simpl; lia) s r' fuel eq_refl Hs' Er)
      by (simpl in Hfuel; lia).
    done. }
  unfold isTrailSurrogate, isLeadSurrogate.
  destruct ((56320 <=? c) && (c <=? 57343))%N eqn:Htrail; [done|].
  destruct ((55296 <=? c) && (c <=? 56319))%N eqn:Hlead.
  - destruct s as [|d s]; [done|].
    destruct ((56320 <=? d) && (d <=? 57343))%N eqn:Hd; [|done].
    destruct (Encode extra s) as [r'|] eqn:Er; [|done]. intros [= <-] Hfuel.
    apply andb_true_iff in Hlead as [?%N.leb_le ?%N.leb_le].
    apply andb_true_iff in Hd as [?%N.leb_le ?%N.leb_le].
    pose proof (percentAll_utf8_length
                  ((c - 55296) * 1024 + (d - 56320) + 65536)%N).
    rewrite length_app in Hfuel.
    destruct fuel as [|fuel]; [lia|].
    rewrite Decode_utf8 by (unfold scalar; lia).
    rewrite (IH (length s) ltac:(simpl; lia) s r' fuel eq_refl
               (Forall_inv_tail Hs') Er) by lia.
    cbn [fmap option_fmap option_map]. f_equal. unfold utf16.
    destruct (N.ltb_spec ((c - 55296) * 1024 + (d - 56320) + 65536) 65536);
      [lia|].
    cbn [app]. f_equal; [lia|]. f_equal. lia.
  - destruct (Encode extra s) as [r'|] eqn:Er; [|done]. intros [= <-] Hfuel.
    assert (scalar c) as Hscalar.
    { unfold scalar. apply andb_false_iff in Htrail, Hlead.
      rewrite !N.leb_gt in Htrail, Hlead. lia. }
    pose proof (percentAll_utf8_length c). rewrite length_app in Hfuel.
    destruct fuel as [|fuel]; [lia|].
    rewrite Decode_utf8 by done.
    rewrite (IH (length s) ltac:(simpl; lia) s r' fuel eq_refl Hs' Er) by lia.
    cbn [fmap option_fmap option_map]. f_equal. unfold utf16.
    by destruct (N.ltb_spec c 65536); [|lia].
Qed.

(** Decoding leaves a text without percent sign as it is. *)
Lemma Decode_percentFree fuel s :
  percentFree s → length s ≤ fuel → Decode fuel s = Some s.
Proof.
  intros Hs. revert fuel. induction Hs as [|c s Hc _ IH]; intros fuel Hfuel.
  { apply Decode_nil. }
  destruct fuel as [|fuel]; [simpl in Hfuel; lia|]. cbn [Decode].
  apply N.eqb_neq in Hc as ->. rewrite IH by (simpl in Hfuel; lia). done.
Qed.

Lemma decode_encodeURI s r :
  codeUnits s → encodeURI s = Some r → decodeURIComponent r = Some s.
Proof. intros Hs Hr. by apply (Encode_Decode isUriReservedPlusHash s r). Qed.

Lemma decode_percentFree s : percentFree s → decodeURIComponent s = Some s.
Proof. intros Hs. by apply Decode_percentFree. Qed.

End UriFacts.

(** ** The two lookups on the forms of a url *)

Module AgreeMore.
Import JSString Builtins CitationTsx Markdown CitationView Spec WellFormed
  IndexFacts IndexMore CitationFacts LinkMore UriFacts.

(** Where a key of a citation normalizes like its url, and the citation
    shares neither the key nor the normalized url with another one, the
    index and [CitationLink] find the same citation. *)
Lemma forms_agree citations i c key :
  citations !! i = Some c → key ∈ forms c →
  normalizeUrl key = normalizeUrl (url c) →
  (∀ j d, citations !! j = Some d → key ∈ forms d → j = i) →
  (∀ j d, citations !! j = Some d →
          normalizeUrl (url d) = normalizeUrl (url c) → j = i) →
  citationMap citations !! key = Some i ∧
  CitationLink_lookup key citations = (Some c, Some i).
Proof.
  intros Hc Hkey Hnorm Hk Hn. split.
  - apply citationMap_latest. split; [by exists c|].
    intros j d Hj Hd Hkd. specialize (Hk j d Hd Hkd). lia.
  - pose proof (forms_nonempty c key Hkey) as Hne.
    rewrite (CitationLink_lookup_passes key citations Hne).
    assert (∀ j d, citations !! j = Some d → url d = key → j = i) as Hexact.
    { intros j d Hd Hurl. apply (Hk j d Hd). rewrite <- Hurl.
      apply url_in_forms. by rewrite Hurl. }
    destruct (findIndex (λ c0, strictEq (url c0) key) citations) as [j|] eqn:E1.
    + apply findIndex_Some in E1 as [(d & Hd & Hurl%strictEq_true) _].
      rewrite (Hexact j d Hd Hurl) in *. cbn [mbind option_bind].
      by rewrite Hc.
    + assert (findIndex (λ c0, strictEq (normalizeUrl (url c0)) (normalizeUrl key))
                citations = Some i) as ->.
      { apply findIndex_Some. split.
        - exists c. split; [done|]. by apply strictEq_true.
        - intros j d Hj Hd Hnd%strictEq_true.
          assert (j = i); [|lia]. apply (Hn j d Hd). congruence. }
      cbn [mbind option_bind]. by rewrite Hc.
Qed.

Lemma normalizeUrl_percentFree u : percentFree u → normalizeUrl u = trim u.
Proof. intros Hu. unfold normalizeUrl. by rewrite decode_percentFree. Qed.

(** X14: for a citation whose url is made of code units and has no
    percent sign, every key the index holds for it (the url and its
    encoded form) is looked up to that citation by the index and by
    [CitationLink] alike, provided no other citation has the key or the
    same normalized url. *)
Theorem plain_url_forms_agree (citations : list Citation) (i : nat)
    (c : Citation) (key : jsstring) :
  citations !! i = Some c → codeUnits (url c) → percentFree (url c) →
  key ∈ forms c →
  (∀ j d, citations !! j = Some d → key ∈ forms d → j = i) →
  (∀ j d, citations !! j = Some d →
          normalizeUrl (url d) = normalizeUrl (url c) → j = i) →
  citationMap citations !! key = Some i ∧
  CitationLink_lookup key citations = (Some c, Some i).
Proof.
  intros Hc Hcu Hpf Hkey. apply forms_agree; [done|done|].
  rewrite (normalizeUrl_percentFree (url c) Hpf).
  unfold forms in Hkey. destruct (url c) as [|u0 u] eqn:Eu;
    [by apply elem_of_nil in Hkey|].
  rewrite (decode_percentFree _ Hpf) in Hkey.
  rewrite bool_decide_eq_true_2 in Hkey by done. cbn [app] in Hkey.
  apply elem_of_cons in Hkey as [->|Hkey];
    [by apply normalizeUrl_percentFree|].
  destruct (encodeURI (u0 :: u)) as [e|] eqn:Ee; [|by apply elem_of_nil in Hkey].
  case_bool_decide; [by apply elem_of_nil in Hkey|].
  apply list_elem_of_singleton in Hkey as ->.
  unfold normalizeUrl. by rewrite (decode_encodeURI _ _ Hcu Ee).
Qed.

Lemma plain_url_forms_agree_witness :
  let citations := [bare (js "http://a.com/x y"); bare (js "http://b.com/")] in
  citationMap citations !! js "http://a.com/x%20y" = Some 0 ∧
  CitationLink_lookup (js "http://a.com/x%20y") citations
  = (Some (bare (js "http://a.com/x y")), Some 0).
Proof.
  intros citations.
  apply (plain_url_forms_agree citations 0 (bare (js "http://a.com/x y"))).
  - reflexivity.
  - apply (bool_decide_unpack _). vm_compute. exact I.
  - apply (bool_decide_unpack _). vm_compute. exact I.
  - vm_compute. apply list_elem_of_In. simpl. auto.
  - intros [|[|j]] d Hd Hkey; [done| |done].
    injection Hd as <-. vm_compute in Hkey.
    apply list_elem_of_In in Hkey. simpl in Hkey. intuition discriminate.
  - intros [|[|j]] d Hd Hnorm; [done| |done].
    injection Hd as <-. vm_compute in Hnorm. discriminate.
Defined.

(** X15: for a citation whose url has escapes and decodes to a text
    without percent sign, the url and its decoded form are looked up to
    that citation by the index and by [CitationLink] alike, provided no
    other citation has the key or the same normalized url. *)
Theorem escaped_url_forms_agree (citations : list Citation) (i : nat)
    (c : Citation) (decoded key : jsstring) :
  citations !! i = Some c → url c ≠ [] →
  decodeURIComponent (url c) = Some decoded → percentFree decoded →
  key = url c ∨ key = decoded →
  (∀ j d, citations !! j = Some d → key ∈ forms d → j = i) →
  (∀ j d, citations !! j = Some d →
          normalizeUrl (url d) = normalizeUrl (url c) → j = i) →
  citationMap citations !! key = Some i ∧
  CitationLink_lookup key citations = (Some c, Some i).
Proof.
  intros Hc Hne Hdec Hpf Hkey.
  assert (normalizeUrl (url c) = trim decoded) as Hu
    by (unfold normalizeUrl; by rewrite Hdec).
  apply forms_agree; [done| |].
  - destruct Hkey as [->| ->]; [by apply url_in_forms|].
    unfold forms. destruct (url c) as [|u0 u] eqn:Eu; [done|]. rewrite Hdec.
    case_bool_decide as E; [rewrite E; left|]. right. apply elem_of_app. left. left.
  - rewrite Hu. destruct Hkey as [->| ->]; [done|].
    by apply normalizeUrl_percentFree.
Qed.

Lemma escaped_url_forms_agree_witness :
  let citations := [bare (js "http://a.com/x%20y")] in
  citationMap citations !! js "http://a.com/x y" = Some 0 ∧
  CitationLink_lookup (js "http://a.com/x y") citations
  = (Some (bare (js "http://a.com/x%20y")), Some 0).
Proof.
  intros citations.
  apply (escaped_url_forms_agree citations 0 (bare (js "http://a.com/x%20y"))
           (js "http://a.com/x y")).
  - reflexivity.
  - discriminate.
  - vm_compute. reflexivity.
  - apply (bool_decide_unpack _). vm_compute. exact I.
  - by right.
  - by intros [|j] d Hd Hkey.
  - by intros [|j] d Hd Hnorm.
Defined.

(** X16: for a citation whose url decodes to something else, also after
    trimming, the index holds the encoded form of the url as a key, but
    [CitationLink] never resolves that key to the citation. *)
Theorem encoded_key_of_escaped_url (citations : list Citation) (i : nat)
    (c : Citation) (decoded encoded : jsstring) :
  citations !! i = Some c → codeUnits (url c) →
  decodeURIComponent (url c) = Some decoded → trim decoded ≠ trim (url c) →
  encodeURI (url c) = Some encoded →
  encoded ∈ forms c ∧ is_Some (citationMap citations !! encoded) ∧
  (CitationLink_lookup encoded citations).2 ≠ Some i.
Proof.
  intros Hc Hcu Hdec Htrim Henc.
  pose proof (decode_encodeURI _ _ Hcu Henc) as Hround.
  assert (encoded ≠ url c) as Hne by (intros ->; congruence).
  assert (url c ≠ []) as Hurl by (intros E; rewrite E in *; by injection Hdec as <-).
  assert (encoded ∈ forms c) as Hkey.
  { unfold forms. destruct (url c) as [|u0 u]; [done|]. rewrite Henc.
    right. apply elem_of_app. right. rewrite bool_decide_eq_false_2 by done. left. }
  split; [done|]. split.
  - destruct (citationMap citations !! encoded) eqn:E; [done|].
    unfold citationMap in E.
    destruct (latest_exists (λ c, encoded ∈ forms c) citations) as (j & Hj).
    { exists c. split; [|done]. by apply list_elem_of_lookup_2 in Hc. }
    apply citationMap_latest in Hj. unfold citationMap in Hj. congruence.
  - rewrite (CitationLink_lookup_passes encoded citations
               (forms_nonempty c encoded Hkey)). cbn [snd].
    destruct (findIndex (λ c0, strictEq (url c0) encoded) citations) as [j|] eqn:E1.
    + intros [= ->]. apply findIndex_Some in E1 as [(d & Hd & Hu%strictEq_true) _].
      congruence.
    + intros [(d & Hd & Hn%strictEq_true) _]%findIndex_Some.
      assert (d = c) as -> by congruence.
      unfold normalizeUrl in Hn. rewrite Hdec, Hround in Hn. done.
Qed.

Lemma encoded_key_of_escaped_url_witness :
  let citations := [bare (js "http://a.com/x%20y")] in
  is_Some (citationMap citations !! js "http://a.com/x%2520y") ∧
  (CitationLink_lookup (js "http://a.com/x%2520y") citations).2 ≠ Some 0.
Proof.
  intros citations.
  destruct (encoded_key_of_escaped_url citations 0
              (bare (js "http://a.com/x%20y")) (js "http://a.com/x y")
              (js "http://a.com/x%2520y")) as (_ & Hmap & Hlink).
  - reflexivity.
  - apply (bool_decide_unpack _). vm_compute. exact I.
  - vm_compute. reflexivity.
  - vm_compute. discriminate.
  - vm_compute. reflexivity.
  - split; [exact Hmap|exact Hlink].
Defined.

End AgreeMore.

(** ** The two passes of [CitationLink] *)

Module ResolveFacts.
Import JSString Builtins CitationTsx Spec WellFormed Variants CitationFacts
  UriFacts.

(** *** White space around a text *)

Lemma whiteSpace_units c :
  isWhiteSpace c = true → c ≠ 37%N ∧ hexValue c = None.
Proof.
  unfold isWhiteSpace, hexValue. intros H.
  rewrite !orb_true_iff, !andb_true_iff, !N.leb_le, !N.eqb_eq in H.
  split; [lia|]. by ncases.
Qed.

Lemma whiteSpace_cons c w :
  whiteSpace (c :: w) ↔ isWhiteSpace c = true ∧ whiteSpace w.
Proof. unfold whiteSpace. cbn [forallb]. apply andb_true_iff. Qed.

Lemma whiteSpace_app v w : whiteSpace (v ++ w) ↔ whiteSpace v ∧ whiteSpace w.
Proof. unfold whiteSpace. rewrite forallb_app. apply andb_true_iff. Qed.

Lemma whiteSpace_percentFree w : whiteSpace w → percentFree w.
Proof.
  induction w as [|c w IH]; [constructor|].
  intros [Hc Hw]%whiteSpace_cons. constructor; [|by apply IH].
  by apply whiteSpace_units.
Qed.

Lemma trimStart_whiteSpace w s : whiteSpace w → trimStart (w ++ s) = trimStart s.
Proof.
  induction w as [|c w IH]; [done|].
  intros [Hc Hw]%whiteSpace_cons. cbn [app trimStart]. rewrite Hc. by apply IH.
Qed.

Lemma trimEnd_whiteSpace s w : whiteSpace w → trimEnd (s ++ w) = trimEnd s.
Proof.
  intros Hw. unfold trimEnd. rewrite reverse_app, trimStart_whiteSpace; [done|].
  unfold whiteSpace in *. rewrite forallb_forall in *.
  intros c Hc. apply Hw. apply list_elem_of_In. apply list_elem_of_In in Hc.
  by apply elem_of_reverse.
Qed.

Lemma trim_whiteSpace before s after :
  whiteSpace before → whiteSpace after → trim (before ++ s ++ after) = trim s.
Proof.
  intros Hb Ha. unfold trim. rewrite (trimStart_whiteSpace _ _ Hb).
  induction s as [|c s IH].
  - cbn [app]. rewrite <- (app_nil_r after) at 1.
    by rewrite (trimStart_whiteSpace _ _ Ha).
  - cbn [app trimStart]. destruct (isWhiteSpace c); [done|].
    by apply (trimEnd_whiteSpace (c :: s)).
Qed.

(** *** Decoding a text with white space around it *)

Lemma parseEscape_other c s : c ≠ 37%N → parseEscape (c :: s) = None.
Proof.
  intros Hc. destruct c as [|p]; [done|].
  do 7 (try (destruct p as [p|p|]; try done)).
Qed.

Lemma parseEscape_length s b rest :
  parseEscape s = Some (b, rest) → length s = 3 + length rest.
Proof.
  destruct s as [|c s]; [done|].
  destruct (decide (c = 37%N)) as [->|Hc]; [|by rewrite parseEscape_other].
  destruct s as [|h [|l r]]; try done. cbn [parseEscape].
  destruct (hexValue h); [|done]. destruct (hexValue l); [|done].
  by intros [= _ ->].
Qed.

Lemma parseEscape_whiteSpace s w :
  whiteSpace w →
  parseEscape (s ++ w) = (λ '(b, rest), (b, rest ++ w)) <$> parseEscape s.
Proof.
  intros Hw.
  assert (∀ v, whiteSpace v → parseEscape v = None) as Hnone.
  { intros [|c v]; [done|]. intros [Hc _]%whiteSpace_cons.
    apply parseEscape_other. by apply whiteSpace_units. }
  destruct s as [|c s]; [by apply Hnone|].
  destruct (decide (c = 37%N)) as [->|Hc];
    [|by rewrite <- app_comm_cons, !parseEscape_other].
  destruct s as [|h [|l r]]; cbn [app parseEscape].
  - destruct w as [|h [|l r]]; try done.
    apply whiteSpace_cons in Hw as [Hh _].
    by rewrite (proj2 (whiteSpace_units h Hh)).
  - destruct w as [|l r]; [done|].
    apply whiteSpace_cons in Hw as [Hl _].
    rewrite (proj2 (whiteSpace_units l Hl)). by destruct (hexValue h).
  - destruct (hexValue h); [|done]. by destruct (hexValue l).
Qed.

Lemma continuation_whiteSpace n s w :
  whiteSpace w →
  continuation n (s ++ w)
  = (λ '(bs, rest), (bs, rest ++ w)) <$> continuation n s.
Proof.
  intros Hw. revert s. induction n as [|n IH]; intros s; [done|].
  cbn [continuation]. rewrite (parseEscape_whiteSpace _ _ Hw).
  destruct (parseEscape s) as [[b rest]|]; [|done].
  cbn [fmap option_fmap option_map mbind option_bind]. rewrite IH.
  by destruct (continuation n rest) as [[bs rest']|].
Qed.

Lemma continuation_length n s bs rest :
  continuation n s = Some (bs, rest) → length rest ≤ length s.
Proof.
  revert s bs rest. induction n as [|n IH]; intros s bs rest.
  { by intros [= _ ->]. }
  cbn [continuation].
  destruct (parseEscape s) as [[b r]|] eqn:E; [|done].
  apply parseEscape_length in E. cbn [mbind option_bind].
  destruct (continuation n r) as [[bs' r']|] eqn:E'; [|done].
  apply IH in E'. intros [= _ <-]. lia.
Qed.

Lemma Decode_whiteSpace w fuel s fuel' :
  whiteSpace w → length s ≤ fuel → length s + length w ≤ fuel' →
  Decode fuel' (s ++ w) = (.++ w) <$> Decode fuel s.
Proof.
  intros Hw. revert s fuel'.
  induction fuel as [|fuel IH]; intros s fuel' Hs Hsw.
  { destruct s; [|simpl in Hs; lia]. rewrite Decode_nil. cbn.
    apply Decode_percentFree; [by apply whiteSpace_percentFree|done]. }
  destruct s as [|c s].
  { rewrite Decode_nil. cbn.
    apply Decode_percentFree; [by apply whiteSpace_percentFree|done]. }
  destruct fuel' as [|fuel']; [simpl in Hsw; lia|].
  cbn [length] in Hs, Hsw. rewrite <- app_comm_cons. cbn [Decode].
  destruct (c =? 37)%N eqn:Ec.
  - rewrite app_comm_cons, (parseEscape_whiteSpace _ _ Hw).
    destruct (parseEscape (c :: s)) as [[b rest]|] eqn:E; [|done].
    pose proof (parseEscape_length _ _ _ E) as Hlen. cbn [length] in Hlen.
    cbn [fmap option_fmap option_map mbind option_bind].
    assert (∀ r, length r ≤ length rest →
                 Decode fuel' (r ++ w) = (.++ w) <$> Decode fuel r) as IH'
      by (intros r Hr; apply IH; lia).
    destruct (leadingOnes b) as [|[|[|[|[|n]]]]]; try done.
    + rewrite IH' by done. by destruct (Decode fuel rest).
    + rewrite (continuation_whiteSpace _ _ _ Hw).
      destruct (continuation _ rest) as [[bs rest']|] eqn:E'; [|done].
      apply continuation_length in E'.
      cbn [fmap option_fmap option_map mbind option_bind].
      destruct (utf8Decode b bs); [|done]. cbn [mbind option_bind].
      rewrite IH' by done. destruct (Decode fuel rest'); [|done].
      cbn. by rewrite app_assoc.
    + rewrite (continuation_whiteSpace _ _ _ Hw).
      destruct (continuation _ rest) as [[bs rest']|] eqn:E'; [|done].
      apply continuation_length in E'.
      cbn [fmap option_fmap option_map mbind option_bind].
      destruct (utf8Decode b bs); [|done]. cbn [mbind option_bind].
      rewrite IH' by done. destruct (Decode fuel rest'); [|done].
      cbn. by rewrite app_assoc.
    + rewrite (continuation_whiteSpace _ _ _ Hw).
      destruct (continuation _ rest) as [[bs rest']|] eqn:E'; [|done].
      apply continuation_length in E'.
      cbn [fmap option_fmap option_map mbind option_bind].
      destruct (utf8Decode b bs); [|done]. cbn [mbind option_bind].
      rewrite IH' by done. destruct (Decode fuel rest'); [|done].
      cbn. by rewrite app_assoc.
  - rewrite (IH s fuel') by lia. by destruct (Decode fuel s).
Qed.

Lemma decode_whiteSpace before s after :
  whiteSpace before → whiteSpace after →
  decodeURIComponent (before ++ s ++ after)
  = (λ decoded, before ++ decoded ++ after) <$> decodeURIComponent s.
Proof.
  intros Hb Ha. unfold decodeURIComponent.
  induction before as [|c before IH].
  - cbn [app]. rewrite (Decode_whiteSpace after (length s)); [|done|done|].
    + by destruct (Decode (length s) s).
    + by rewrite length_app.
  - apply whiteSpace_cons in Hb as [Hc Hb].
    cbn [app length Decode].
    apply whiteSpace_units in Hc as [Hc%N.eqb_neq _]. rewrite Hc.
    rewrite (IH Hb). by destruct (Decode (length s) s).
Qed.

(** Normalization does away with the white space around a text. *)
Lemma normalizeUrl_padded core s :
  padded core s → normalizeUrl s = normalizeUrl core.
Proof.
  intros (before & after & -> & Hb & Ha). unfold normalizeUrl.
  rewrite (decode_whiteSpace _ _ _ Hb Ha).
  destruct (decodeURIComponent core); cbn; by apply trim_whiteSpace.
Qed.

(** Normalization takes a percent-encoding to what it encodes. *)
Lemma normalizeUrl_percentEncodingOf plain escaped :
  percentEncodingOf plain escaped → normalizeUrl escaped = normalizeUrl plain.
Proof.
  intros [Hpf Hdec]. unfold normalizeUrl.
  by rewrite Hdec, (decode_percentFree _ Hpf).
Qed.

(** What [encodeURI] makes of a text without percent sign is a
    percent-encoding of it. *)
Lemma encodeURI_percentEncodingOf plain escaped :
  codeUnits plain → percentFree plain → encodeURI plain = Some escaped →
  percentEncodingOf plain escaped.
Proof. intros Hcu Hpf He. split; [done|]. by apply decode_encodeURI. Qed.

(** C10, as the code has it: the empty href resolves to no citation
    whatever the citations are.  For an href that is not empty,
    [CitationLink] finds the earliest citation whose url is the href;
    when there is none, the earliest citation whose normalized url is the
    normalized href, both sides being normalized; the citation it shows is
    the one at that index.  So the href resolves exactly when some url has
    its normalized form; this is so when the two differ only by white space
    around them, and when one is a percent-encoding (in particular the
    [encodeURI] form) of the other and the other has no percent sign. *)
Theorem CitationLink_two_passes (href : jsstring) (citations : list Citation) :
  let exact := λ c, url c = href in
  let normalized := λ c, normalizeUrl (url c) = normalizeUrl href in
  let result := CitationLink_lookup href citations in
  (href = [] → result = (None, None)) ∧
  (href ≠ [] →
   (∀ i, result.2 = Some i ↔
         earliest exact citations i ∨
         ((∀ c, c ∈ citations → ¬ exact c) ∧ earliest normalized citations i)) ∧
   result.1 = result.2 ≫= (citations !!.) ∧
   (is_Some result.1 ↔ ∃ c, c ∈ citations ∧ normalized c) ∧
   (∀ c, c ∈ citations →
      sameButWhiteSpace (url c) href ∨
      percentEncodingOf (url c) href ∨ percentEncodingOf href (url c) ∨
      (codeUnits (url c) ∧ percentFree (url c) ∧
       encodeURI (url c) = Some href) ∨
      (codeUnits href ∧ percentFree href ∧ encodeURI href = Some (url c)) →
      is_Some result.1)).
Proof.
  intros exact normalized result. rename href into h.
  split; [by intros ->|]. intros Hne.
  subst result. rewrite (CitationLink_lookup_passes h citations Hne).
  set (pass1 := findIndex (λ c, strictEq (url c) h) citations).
  set (pass2 := findIndex
                  (λ c, strictEq (normalizeUrl (url c)) (normalizeUrl h))
                  citations).
  assert (∀ i, pass1 = Some i ↔ earliest exact citations i) as H1.
  { intros i. unfold pass1. rewrite findIndex_Some.
    split; apply earliest_ext; intros c; by rewrite strictEq_true. }
  assert (∀ i, pass2 = Some i ↔ earliest normalized citations i) as H2.
  { intros i. unfold pass2. rewrite findIndex_Some.
    split; apply earliest_ext; intros c; by rewrite strictEq_true. }
  assert (pass1 = None ↔ ∀ c, c ∈ citations → ¬ exact c) as H1n.
  { unfold pass1. rewrite findIndex_None. split; intros H c Hc.
    - intros E%strictEq_true. rewrite H in E by done. done.
    - destruct (strictEq (url c) h) eqn:E; [|done].
      apply strictEq_true in E. by destruct (H c Hc). }
  assert (∀ c, c ∈ citations → normalized c →
               is_Some ((match pass1 with Some i => Some i | None => pass2 end)
                          ≫= (citations !!.))) as Hfound.
  { intros c Hc Hnorm.
    destruct pass1 as [j|] eqn:E1.
    - by apply findIndex_lookup in E1.
    - destruct pass2 as [j|] eqn:E2; [by apply findIndex_lookup in E2|].
      unfold pass2 in E2. rewrite findIndex_None in E2.
      specialize (E2 c Hc). apply strictEq_true in Hnorm. congruence. }
  split; [|split; [|split]].
  - intros i. cbn [snd]. destruct pass1 as [j|] eqn:E1.
    + rewrite <- H1. split; [auto|]. intros [?|[Hnone _]]; [done|].
      apply H1n in Hnone. done.
    + rewrite H2, <- H1. split; [|intros [?|[_ ?]]; done].
      intros ?. right. split; [by apply H1n|done].
  - cbn [fst snd]. by destruct pass1 as [j|]; [|destruct pass2 as [j|]].
  - cbn [fst]. split.
    + intros Hsome.
      assert (∃ i c, citations !! i = Some c ∧
                     (exact c ∨ normalized c)) as (i & c & Hc & Hor).
      { destruct pass1 as [j|] eqn:E1.
        - destruct (proj1 (H1 j) eq_refl) as [(c & Hc & Hex) _]. eauto.
        - destruct pass2 as [j|] eqn:E2; [|by destruct Hsome].
          destruct (proj1 (H2 j) eq_refl) as [(c & Hc & Hex) _]. eauto. }
      exists c. split; [by apply list_elem_of_lookup_2 in Hc|].
      destruct Hor as [Hex|Hn]; [|done]. unfold normalized, exact in *.
      by rewrite Hex.
    + intros (c & Hc & Hnorm). by apply (Hfound c).
  - intros c Hc Hvar. cbn [fst]. apply (Hfound c Hc). unfold normalized.
    destruct Hvar as [(core & Hu & Hh)|[Hp|[Hp|[(Hcu & Hpf & He)|(Hcu & Hpf & He)]]]].
    + by rewrite (normalizeUrl_padded _ _ Hu), (normalizeUrl_padded _ _ Hh).
    + by rewrite (normalizeUrl_percentEncodingOf _ _ Hp).
    + by rewrite (normalizeUrl_percentEncodingOf _ _ Hp).
    + by rewrite (normalizeUrl_percentEncodingOf _ _
                    (encodeURI_percentEncodingOf _ _ Hcu Hpf He)).
    + by rewrite (normalizeUrl_percentEncodingOf _ _
                    (encodeURI_percentEncodingOf _ _ Hcu Hpf He)).
Qed.

Lemma CitationLink_two_passes_witness :
  let citations :=
    [bare (js "http://a.com/other"); bare (js "http://a.com/x%20y");
     bare (js "http://a.com/x y")] in
  (CitationLink_lookup (js " http://a.com/x%20y ") citations).2 = Some 1 ∧
  is_Some (CitationLink_lookup (js "http://a.com/x%20y  ") citations).1 ∧
  is_Some (CitationLink_lookup (js "http://a.com/%6Fther") citations).1.
Proof.
  intros citations. split; [|split].
  - destruct (CitationLink_two_passes (js " http://a.com/x%20y ") citations)
      as (_ & Hpasses).
    destruct Hpasses as (Hindex & _ & _); [discriminate|].
    apply Hindex. right. split.
    + intros c Hc.
      repeat (apply elem_of_cons in Hc as [->|Hc]; [vm_compute; discriminate|]).
      by apply elem_of_nil in Hc.
    + split.
      * exists (bare (js "http://a.com/x%20y")). split; vm_compute; reflexivity.
      * intros [|[|j]] y Hj Hy; [|lia|lia].
        injection Hy as <-. vm_compute. discriminate.
  - destruct (CitationLink_two_passes (js "http://a.com/x%20y  ") citations)
      as (_ & Hpasses).
    destruct Hpasses as (_ & _ & _ & Hvariant); [discriminate|].
    apply (Hvariant (bare (js "http://a.com/x%20y"))).
    + apply list_elem_of_In. simpl. auto.
    + left. exists (js "http://a.com/x%20y"). split.
      * by exists [], [].
      * by exists [], (js "  ").
  - destruct (CitationLink_two_passes (js "http://a.com/%6Fther") citations)
      as (_ & Hpasses).
    destruct Hpasses as (_ & _ & _ & Hvariant); [discriminate|].
    apply (Hvariant (bare (js "http://a.com/other"))).
    + apply list_elem_of_In. simpl. auto.
    + right. left. split; [|vm_compute; reflexivity].
      apply (bool_decide_unpack _). vm_compute. exact I.
Defined.

(** C10 as stated fails twice.  The empty href is turned away by the
    guard of the lookup before either pass, although a citation has the
    empty url.  And the href [http://a.com/x%2520y] is the [encodeURI]
    form of the url [http://a.com/x%20y], from which it differs by
    percent-encoding only, and the url equals the href after
    normalization, yet the lookup finds nothing: the second pass
    normalizes the url too. *)
Lemma CitationLink_two_passes_counterexample :
  (earliest (λ c, url c = []) [bare []] 0 ∧
   CitationLink_lookup [] [bare []] = (None, None)) ∧
  let u := js "http://a.com/x%20y" in
  let href := js "http://a.com/x%2520y" in
  encodeURI u = Some href ∧ decodeURIComponent href = Some u ∧
  earliest (λ c, url c = normalizeUrl href) [bare u] 0 ∧
  CitationLink_lookup href [bare u] = (None, None).
Proof.
  split; [split; [|reflexivity]|].
  - split; [by exists (bare [])|]. intros j y Hj. lia.
  - intros u href. split; [vm_compute; reflexivity|].
    split; [vm_compute; reflexivity|]. split; [|vm_compute; reflexivity].
    split.
    + exists (bare u). split; [reflexivity|]. vm_compute. reflexivity.
    + intros j y Hj. lia.
Qed.

End ResolveFacts.
